(** * Kudu lock primitives ([src/util/locks.h])

    A shallow embedding of [rw_spinlock] and [percpu_rwlock] and the
    properties of their try-lock rollback, acquisition order, annotation
    order, construction and shard routing.

    Conventions of the embedding:
    - a method is a function from the object's state to an [outcome], the
      state afterwards and the list of calls it made to its collaborators
      (the semaphore [sem_] and the race-detector macros), in program order;
    - [int] values that can be negative ([n_cpus_], the processor id) are
      [Z]; loop counters that start at 0 and shard references are [nat];
    - a call that spins for ever in a sequential execution is [Blocks], a
      failed [CHECK_*] is [Aborts], and behaviour the C++ standard or the
      lock's contract leaves undefined (indexing outside the shard array,
      releasing a mode that is not held) is [Undefined]. *)

From Stdlib Require Import ZArith Lia.
From stdpp Require Import base list.

Local Open Scope Z_scope.
Local Open Scope nat_scope.

(** ** Outcomes and the call-logging state monad *)

Inductive outcome (A : Type) : Type :=
| Returns (a : A)
| Blocks
| Aborts
| Undefined.
Arguments Returns {A} a.
Arguments Blocks {A}.
Arguments Aborts {A}.
Arguments Undefined {A}.

Definition M (St Ev A : Type) : Type := St -> outcome A * St * list Ev.

Definition ret_ {St Ev A} (a : A) : M St Ev A :=
  fun s => (Returns a, s, []).

Definition bind_ {St Ev A B} (m : M St Ev A) (k : A -> M St Ev B) : M St Ev B :=
  fun s =>
    match m s with
    | (Returns a, s1, t1) =>
        match k a s1 with
        | (r, s2, t2) => (r, s2, t1 ++ t2)
        end
    | (Blocks, s1, t1) => (Blocks, s1, t1)
    | (Aborts, s1, t1) => (Aborts, s1, t1)
    | (Undefined, s1, t1) => (Undefined, s1, t1)
    end.

Notation "'let!' x ':=' m 'in' k" := (bind_ m (fun x => k))
  (at level 10, x name, m at level 100, k at level 200).

Definition result {St Ev A} (r : outcome A * St * list Ev) : outcome A := fst (fst r).
Definition after {St Ev A} (r : outcome A * St * list Ev) : St := snd (fst r).
Definition calls {St Ev A} (r : outcome A * St * list Ev) : list Ev := snd r.

(** ** [rw_semaphore] *)

Module rw_semaphore.

(** Modelled from the spec: [util/rw_semaphore.h] is not part of the
    sources at hand.  The state is the reader count and the writer flag of
    the "shared/exclusive semaphore-like primitive" of the data model:
    either no writer and any number of readers, or one writer. *)
Record t : Type := mk { readers : nat; writer : bool }.

(** Modelled from the spec: a lock is "constructed unlocked". *)
Definition init : t := {| readers := 0; writer := false |}.

(** Modelled from the spec: [is_write_locked] reports only the
    exclusive-held state. *)
Definition is_write_locked (s : t) : bool := writer s.

(** Modelled from the spec: [is_locked] reports any (shared or exclusive)
    held state. *)
Definition is_locked (s : t) : bool := writer s || negb (readers s =? 0).

(** Modelled from the spec: [lock_shared] blocks until shared mode is
    available, that is while a writer holds the semaphore; several readers
    may hold it together. *)
Definition lock_shared (s : t) : outcome t :=
  if writer s then Blocks
  else Returns {| readers := S (readers s); writer := false |}.

(** Modelled from the spec: [unlock_shared] gives one shared hold back;
    releasing a mode that is not held is undefined by contract. *)
Definition unlock_shared (s : t) : outcome t :=
  if writer s then Undefined
  else match readers s with
       | O => Undefined
       | S n => Returns {| readers := n; writer := false |}
       end.

(** Modelled from the spec: [try_lock] attempts the exclusive mode without
    blocking and reports success or failure; on failure no state changes. *)
Definition try_lock (s : t) : bool * t :=
  if is_locked s then (false, s)
  else (true, {| readers := readers s; writer := true |}).

(** Modelled from the spec: [lock] blocks until the exclusive mode is
    available (no writer and no reader). *)
Definition lock (s : t) : outcome t :=
  if is_locked s then Blocks
  else Returns {| readers := readers s; writer := true |}.

(** Modelled from the spec: [unlock] gives the exclusive hold back;
    calling it on a semaphore that is not write-held is undefined. *)
Definition unlock (s : t) : outcome t :=
  if writer s then Returns {| readers := readers s; writer := false |}
  else Undefined.

End rw_semaphore.

(** ** [rw_spinlock] (locks.h, lines 66-113) *)

Module rw_spinlock.

Record t : Type := mk { sem_ : rw_semaphore.t }.

(** What a method of [rw_spinlock] calls, in program order: the methods of
    [sem_] (with the value returned, for those that return one) and the
    race-detector macros, which receive [this], the lock as it is at the
    time of the call, and the slot ([0] shared, [1] exclusive). *)
Inductive event : Type :=
| sem_lock_shared
| sem_unlock_shared
| sem_try_lock (ret : bool)
| sem_lock
| sem_unlock
| sem_is_write_locked (ret : bool)
| sem_is_locked (ret : bool)
| RWLOCK_CREATE (this : t)
| RWLOCK_DESTROY (this : t)
| RWLOCK_ACQUIRED (this : t) (is_w : Z)
| RWLOCK_RELEASED (this : t) (is_w : Z).

(** A call of a state-changing method of [sem_]. *)
Definition sem_do (e : event) (f : rw_semaphore.t -> outcome rw_semaphore.t)
  : M t event unit :=
  fun this =>
    match f (sem_ this) with
    | Returns s => (Returns tt, {| sem_ := s |}, [e])
    | Blocks => (Blocks, this, [e])
    | Aborts => (Aborts, this, [e])
    | Undefined => (Undefined, this, [e])
    end.

(** A call of a method of [sem_] that returns a [bool]. *)
Definition sem_ask (e : bool -> event) (f : rw_semaphore.t -> bool * rw_semaphore.t)
  : M t event bool :=
  fun this =>
    match f (sem_ this) with
    | (b, s) => (Returns b, {| sem_ := s |}, [e b])
    end.

(** Modelled from the spec: the macros of [gutil/dynamic_annotations.h]
    emit an acquisition or release event to the race detector and change
    nothing else. *)
Definition ANNOTATE_RWLOCK_CREATE : M t event unit :=
  fun this => (Returns tt, this, [RWLOCK_CREATE this]).
Definition ANNOTATE_RWLOCK_DESTROY : M t event unit :=
  fun this => (Returns tt, this, [RWLOCK_DESTROY this]).
Definition ANNOTATE_RWLOCK_ACQUIRED (is_w : Z) : M t event unit :=
  fun this => (Returns tt, this, [RWLOCK_ACQUIRED this is_w]).
Definition ANNOTATE_RWLOCK_RELEASED (is_w : Z) : M t event unit :=
  fun this => (Returns tt, this, [RWLOCK_RELEASED this is_w]).

(** [rw_spinlock() { ANNOTATE_RWLOCK_CREATE(this); }], run on the
    default-constructed member [sem_]. *)
Definition ctor : outcome unit * t * list event :=
  ANNOTATE_RWLOCK_CREATE {| sem_ := rw_semaphore.init |}.

Definition dtor : M t event unit := ANNOTATE_RWLOCK_DESTROY.

Definition lock_shared : M t event unit :=
  let! _ := sem_do sem_lock_shared rw_semaphore.lock_shared in
  ANNOTATE_RWLOCK_ACQUIRED 0%Z.

Definition unlock_shared : M t event unit :=
  let! _ := ANNOTATE_RWLOCK_RELEASED 0%Z in
  sem_do sem_unlock_shared rw_semaphore.unlock_shared.

Definition try_lock : M t event bool :=
  let! ret := sem_ask sem_try_lock rw_semaphore.try_lock in
  let! _ := (if ret : bool then ANNOTATE_RWLOCK_ACQUIRED 1%Z else ret_ tt) in
  ret_ ret.

Definition lock : M t event unit :=
  let! _ := sem_do sem_lock rw_semaphore.lock in
  ANNOTATE_RWLOCK_ACQUIRED 1%Z.

Definition unlock : M t event unit :=
  let! _ := ANNOTATE_RWLOCK_RELEASED 1%Z in
  sem_do sem_unlock rw_semaphore.unlock.

Definition is_write_locked : M t event bool :=
  sem_ask sem_is_write_locked (fun s => (rw_semaphore.is_write_locked s, s)).

Definition is_locked : M t event bool :=
  sem_ask sem_is_locked (fun s => (rw_semaphore.is_locked s, s)).

(** The two states a shard is in around an exclusive hold. *)
Definition unlocked (l : t) : Prop := rw_semaphore.is_locked (sem_ l) = false.
Definition write_held : t := {| sem_ := {| rw_semaphore.readers := 0; rw_semaphore.writer := true |} |}.

End rw_spinlock.

(** ** [percpu_rwlock] (locks.h, lines 140-201) *)

Module padded_lock.
(** [struct padded_lock { rw_spinlock lock; char padding[...]; }]: the
    padding bytes carry no state. *)
Record t : Type := mk { lock : rw_spinlock.t }.
End padded_lock.

Module percpu_rwlock.

Record t : Type := mk { n_cpus_ : Z; locks_ : list padded_lock.t }.

(** An event of shard [i]: [this] of the event is [&locks_[i].lock]. *)
Definition event : Type := nat * rw_spinlock.event.

(** [locks_[i].lock.m()]: the method [m] run on the shard at index [i];
    indexing outside the array is undefined behaviour. *)
Definition at_shard {A} (i : nat) (m : M rw_spinlock.t rw_spinlock.event A)
  : M t event A :=
  fun p =>
    match locks_ p !! i with
    | Some pl =>
        match m (padded_lock.lock pl) with
        | (r, l, tr) =>
            (r,
             {| n_cpus_ := n_cpus_ p;
                locks_ := <[i := {| padded_lock.lock := l |}]> (locks_ p) |},
             map (pair i) tr)
        end
    | None => (Undefined, p, [])
    end.

(** [new padded_lock[n]]: [n] shards, each default-constructed, in index
    order. *)
Definition new_padded_locks (n : nat) : list padded_lock.t * list event :=
  (replicate n {| padded_lock.lock := after rw_spinlock.ctor |},
   flat_map (fun i => map (pair i) (calls rw_spinlock.ctor)) (seq 0 n)).

(** The constructor.  [NumCPUs] is what the processor-count service
    answers: the count it returns and the value of [errno] after the call
    ([errno] is cleared before it). *)
Definition ctor (NumCPUs : Z * Z) : outcome t * list event :=
  match NumCPUs with
  | (n, errno) =>
      if negb (errno =? 0)%Z then (Aborts, [])       (* CHECK_EQ(errno, 0) *)
      else if negb (0 <? n)%Z then (Aborts, [])      (* CHECK_GT(n_cpus_, 0) *)
      else match new_padded_locks (Z.to_nat n) with
           | (ls, tr) => (Returns {| n_cpus_ := n; locks_ := ls |}, tr)
           end
  end.

(** [get_lock]: [cpu] is what [sched_getcpu()] answers at the time of the
    call.  The reference returned is the index of the shard. *)
Definition get_lock (cpu : Z) (p : t) : outcome nat :=
  if negb (cpu <? n_cpus_ p)%Z then Aborts           (* CHECK_LT(cpu, n_cpus_) *)
  else if (0 <=? cpu)%Z && (cpu <? Z.of_nat (length (locks_ p)))%Z
       then Returns (Z.to_nat cpu)                   (* locks_[cpu].lock *)
       else Undefined.

(** [while (i--) { locks_[i].lock.unlock(); }] *)
Fixpoint try_lock_rollback (i : nat) : M t event unit :=
  match i with
  | O => ret_ tt
  | S j => let! _ := at_shard j rw_spinlock.unlock in try_lock_rollback j
  end.

(** The [for] loop of [try_lock] with [k] iterations left, at index [i]. *)
Fixpoint try_lock_from (k i : nat) : M t event bool :=
  match k with
  | O => ret_ true
  | S k' =>
      let! ok := at_shard i rw_spinlock.try_lock in
      if ok : bool then try_lock_from k' (S i)
      else let! _ := try_lock_rollback i in ret_ false
  end.

(** [for (int i = 0; i < n_cpus_; i++)] runs [max 0 n_cpus_] times. *)
Definition try_lock : M t event bool :=
  fun p => try_lock_from (Z.to_nat (n_cpus_ p)) 0 p.

(** The loop of [is_locked]: [true] at the first shard that reports held. *)
Fixpoint is_locked_from (k i : nat) : M t event bool :=
  match k with
  | O => ret_ false
  | S k' =>
      let! held := at_shard i rw_spinlock.is_locked in
      if held : bool then ret_ true else is_locked_from k' (S i)
  end.

Definition is_locked : M t event bool :=
  fun p => is_locked_from (Z.to_nat (n_cpus_ p)) 0 p.

(** The loop of [lock]: a shard that is held stops it there, spinning. *)
Fixpoint lock_from (k i : nat) : M t event unit :=
  match k with
  | O => ret_ tt
  | S k' => let! _ := at_shard i rw_spinlock.lock in lock_from k' (S i)
  end.

Definition lock : M t event unit :=
  fun p => lock_from (Z.to_nat (n_cpus_ p)) 0 p.

(** The loop of [unlock]. *)
Fixpoint unlock_from (k i : nat) : M t event unit :=
  match k with
  | O => ret_ tt
  | S k' => let! _ := at_shard i rw_spinlock.unlock in unlock_from k' (S i)
  end.

Definition unlock : M t event unit :=
  fun p => unlock_from (Z.to_nat (n_cpus_ p)) 0 p.

(** [~percpu_rwlock() { delete [] locks_; }]: the elements of the array are
    destroyed from the last to the first, each by [~rw_spinlock()]. *)
Fixpoint dtor_from (i : nat) : M t event unit :=
  match i with
  | O => ret_ tt
  | S j => let! _ := at_shard j rw_spinlock.dtor in dtor_from j
  end.

Definition dtor : M t event unit :=
  fun p => dtor_from (length (locks_ p)) p.

(** The invariant the constructor establishes: [locks_] has [n_cpus_]
    elements and [n_cpus_] is positive. *)
Definition wf (p : t) : Prop :=
  (0 < n_cpus_ p)%Z /\ Z.of_nat (length (locks_ p)) = n_cpus_ p.

(** The shard at index [i]. *)
Definition shard (p : t) (i : nat) : option rw_spinlock.t :=
  padded_lock.lock <$> locks_ p !! i.

(** The lock with every shard held exclusively. *)
Definition all_write_held (n : Z) : t :=
  {| n_cpus_ := n;
     locks_ := replicate (Z.to_nat n) {| padded_lock.lock := rw_spinlock.write_held |} |}.

(** The lock with no shard held. *)
Definition all_unlocked (n : Z) : t :=
  {| n_cpus_ := n;
     locks_ := replicate (Z.to_nat n) {| padded_lock.lock := after rw_spinlock.ctor |} |}.

End percpu_rwlock.

(** ** Vocabulary of the statements *)

Module calls_of.
Import rw_spinlock.

(** The calls of one successful [locks_[i].lock.try_lock()], of one
    [locks_[i].lock.lock()] that returns and of one
    [locks_[i].lock.unlock()], on a shard nobody else holds. *)
Definition try_locked (i : nat) : list percpu_rwlock.event :=
  [(i, sem_try_lock true); (i, RWLOCK_ACQUIRED write_held 1%Z)].
Definition locked (i : nat) : list percpu_rwlock.event :=
  [(i, sem_lock); (i, RWLOCK_ACQUIRED write_held 1%Z)].
Definition unlocked (i : nat) : list percpu_rwlock.event :=
  [(i, RWLOCK_RELEASED write_held 1%Z); (i, sem_unlock)].

(** The calls of a [percpu_rwlock::try_lock()] whose first failure is at
    shard [i]: shards [0..i-1] acquired upwards, the failed attempt, then
    shards [i-1..0] released downwards. *)
Definition failed_try_lock (i : nat) : list percpu_rwlock.event :=
  flat_map try_locked (seq 0 i)
    ++ (i, sem_try_lock false) :: flat_map unlocked (rev (seq 0 i)).
End calls_of.

(** A sequence of calls returns and leaves the object as it was. *)
Definition restores {St Ev} (m : M St Ev unit) (s : St) : Prop :=
  result (m s) = Returns tt /\ after (m s) = s.

(** Whether a shard is held in some mode, and the index of the first shard
    of a list that is. *)
Definition held (pl : padded_lock.t) : bool :=
  rw_semaphore.is_locked (rw_spinlock.sem_ (padded_lock.lock pl)).

Fixpoint first_held (ls : list padded_lock.t) : option nat :=
  match ls with
  | [] => None
  | pl :: ls' => if held pl then Some 0 else S <$> first_held ls'
  end.

(** The number of shards, as the field and as the size of the array, and
    the methods that leave it alone. *)
Definition shape (p : percpu_rwlock.t) : Z * nat :=
  (percpu_rwlock.n_cpus_ p, length (percpu_rwlock.locks_ p)).

Definition keeps_shape {A} (m : M percpu_rwlock.t percpu_rwlock.event A) : Prop :=
  forall p, shape (after (m p)) = shape p.

(** ** Clients of a [percpu_rwlock]: any sequence of method calls *)

Module client.

(** The methods of the handle returned by [get_lock]. *)
Inductive shard_method : Type :=
| m_lock_shared | m_unlock_shared | m_try_lock | m_lock | m_unlock
| m_is_write_locked | m_is_locked.

Definition run_shard_method (m : shard_method)
  : M rw_spinlock.t rw_spinlock.event unit :=
  match m with
  | m_lock_shared => rw_spinlock.lock_shared
  | m_unlock_shared => rw_spinlock.unlock_shared
  | m_try_lock => let! _ := rw_spinlock.try_lock in ret_ tt
  | m_lock => rw_spinlock.lock
  | m_unlock => rw_spinlock.unlock
  | m_is_write_locked => let! _ := rw_spinlock.is_write_locked in ret_ tt
  | m_is_locked => let! _ := rw_spinlock.is_locked in ret_ tt
  end.

(** A call on the sharded lock, or on the shard a handle refers to. *)
Inductive method : Type :=
| try_lock | is_locked | lock | unlock
| on_shard (i : nat) (m : shard_method).

Definition run_method (c : method) : M percpu_rwlock.t percpu_rwlock.event unit :=
  match c with
  | try_lock => let! _ := percpu_rwlock.try_lock in ret_ tt
  | is_locked => let! _ := percpu_rwlock.is_locked in ret_ tt
  | lock => percpu_rwlock.lock
  | unlock => percpu_rwlock.unlock
  | on_shard i m => percpu_rwlock.at_shard i (run_shard_method m)
  end.

(** The lock after the calls [cs], whatever their outcomes. *)
Fixpoint run (cs : list method) (p : percpu_rwlock.t) : percpu_rwlock.t :=
  match cs with
  | [] => p
  | c :: cs' => run cs' (after (run_method c p))
  end.

End client.

(** ** Threads sharing one [rw_spinlock]

    A schedule is a list of (thread, method) pairs: the order in which the
    threads' calls take effect on the lock.  The configuration keeps, next
    to the lock, which threads hold it in which mode: a thread holds a mode
    from the return of its acquiring call to its releasing call. *)

Module schedule.

Inductive method : Type :=
| lock_shared | unlock_shared | try_lock | lock | unlock.

Record config : Type := mk {
  the_lock : rw_spinlock.t;
  shared_holders : list nat;
  exclusive_holders : list nat
}.

Definition initial : config :=
  {| the_lock := after rw_spinlock.ctor;
     shared_holders := [];
     exclusive_holders := [] |}.

Fixpoint holds (t : nat) (l : list nat) : bool :=
  match l with
  | [] => false
  | u :: l' => (t =? u) || holds t l'
  end.

Fixpoint remove_one (t : nat) (l : list nat) : list nat :=
  match l with
  | [] => []
  | u :: l' => if t =? u then l' else u :: remove_one t l'
  end.

(** One call of thread [t].  A blocking call that cannot be granted
    leaves the configuration as it is (the thread keeps spinning, and may
    be scheduled again); a release of a mode the thread does not hold is
    outside the lock's protocol and has no successor ([None]). *)
Definition step (t : nat) (m : method) (c : config) : option config :=
  match m with
  | lock_shared =>
      match rw_spinlock.lock_shared (the_lock c) with
      | (Returns _, l, _) =>
          Some {| the_lock := l;
                  shared_holders := t :: shared_holders c;
                  exclusive_holders := exclusive_holders c |}
      | (Blocks, _, _) => Some c
      | _ => None
      end
  | unlock_shared =>
      if holds t (shared_holders c) then
        match rw_spinlock.unlock_shared (the_lock c) with
        | (Returns _, l, _) =>
            Some {| the_lock := l;
                    shared_holders := remove_one t (shared_holders c);
                    exclusive_holders := exclusive_holders c |}
        | _ => None
        end
      else None
  | try_lock =>
      match rw_spinlock.try_lock (the_lock c) with
      | (Returns true, l, _) =>
          Some {| the_lock := l;
                  shared_holders := shared_holders c;
                  exclusive_holders := t :: exclusive_holders c |}
      | (Returns false, l, _) =>
          Some {| the_lock := l;
                  shared_holders := shared_holders c;
                  exclusive_holders := exclusive_holders c |}
      | _ => None
      end
  | lock =>
      match rw_spinlock.lock (the_lock c) with
      | (Returns _, l, _) =>
          Some {| the_lock := l;
                  shared_holders := shared_holders c;
                  exclusive_holders := t :: exclusive_holders c |}
      | (Blocks, _, _) => Some c
      | _ => None
      end
  | unlock =>
      if holds t (exclusive_holders c) then
        match rw_spinlock.unlock (the_lock c) with
        | (Returns _, l, _) =>
            Some {| the_lock := l;
                    shared_holders := shared_holders c;
                    exclusive_holders := remove_one t (exclusive_holders c) |}
        | _ => None
        end
      else None
  end.

Fixpoint run (sched : list (nat * method)) (c : config) : option config :=
  match sched with
  | [] => Some c
  | (t, m) :: sched' =>
      match step t m c with
      | Some c' => run sched' c'
      | None => None
      end
  end.

(** What ties the holders to the state of the semaphore. *)
Definition consistent (c : config) : Prop :=
  let s := rw_spinlock.sem_ (the_lock c) in
  rw_semaphore.readers s = length (shared_holders c) /\
  if rw_semaphore.writer s
  then length (exclusive_holders c) = 1 /\ shared_holders c = []
  else exclusive_holders c = [].

End schedule.

(** ** Counting the annotations of a shard in a call log *)

Definition acquired_on (i : nat) (e : percpu_rwlock.event) : bool :=
  match e with
  | (j, rw_spinlock.RWLOCK_ACQUIRED _ _) => j =? i
  | _ => false
  end.

Definition released_on (i : nat) (e : percpu_rwlock.event) : bool :=
  match e with
  | (j, rw_spinlock.RWLOCK_RELEASED _ _) => j =? i
  | _ => false
  end.

Fixpoint count_calls {A} (f : A -> bool) (l : list A) : nat :=
  match l with
  | [] => 0
  | x :: l' => (if f x then 1 else 0) + count_calls f l'
  end.

(** The annotations of one [rw_spinlock], by slot. *)
Definition acquired_in (slot : Z) (e : rw_spinlock.event) : bool :=
  match e with
  | rw_spinlock.RWLOCK_ACQUIRED _ s => (s =? slot)%Z
  | _ => false
  end.

Definition released_in (slot : Z) (e : rw_spinlock.event) : bool :=
  match e with
  | rw_spinlock.RWLOCK_RELEASED _ s => (s =? slot)%Z
  | _ => false
  end.

(** The calls that are messages to the race detector. *)
Definition is_annotation (e : rw_spinlock.event) : bool :=
  match e with
  | rw_spinlock.RWLOCK_CREATE _ | rw_spinlock.RWLOCK_DESTROY _
  | rw_spinlock.RWLOCK_ACQUIRED _ _ | rw_spinlock.RWLOCK_RELEASED _ _ => true
  | _ => false
  end.

(** The calls [ms] made one after the other on one [rw_spinlock]; a call
    that does not return ends the sequence. *)
Fixpoint run_shard_methods (ms : list client.shard_method)
  : M rw_spinlock.t rw_spinlock.event unit :=
  match ms with
  | [] => ret_ tt
  | m :: ms' => let! _ := client.run_shard_method m in run_shard_methods ms'
  end.

(** The holds the semaphore has on record, by slot. *)
Definition holds_in (slot : Z) (l : rw_spinlock.t) : nat :=
  if (slot =? 0)%Z then rw_semaphore.readers (rw_spinlock.sem_ l)
  else if rw_semaphore.writer (rw_spinlock.sem_ l) then 1 else 0.

(** ** Threads sharing one [percpu_rwlock]

    Every method of [percpu_rwlock] acts on the shards only through calls
    [locks_[i].lock.m()], and a reader acts on the shard its handle refers
    to.  An execution of any number of threads is therefore an interleaving
    of such calls: a list of (thread, shard, method) triples.  Each shard
    carries its own holders, as in [schedule]. *)

Module sharded.

Abbreviation config := (list schedule.config).

Definition initial (n : nat) : config := replicate n schedule.initial.

(** The sharded lock of a configuration. *)
Definition the_lock (n : Z) (cs : config) : percpu_rwlock.t :=
  {| percpu_rwlock.n_cpus_ := n;
     percpu_rwlock.locks_ :=
       map (fun c => {| padded_lock.lock := schedule.the_lock c |}) cs |}.

(** One call of thread [t] on shard [i]. *)
Definition step (t i : nat) (m : schedule.method) (cs : config) : option config :=
  match cs !! i with
  | Some c =>
      match schedule.step t m c with
      | Some c' => Some (<[i := c']> cs)
      | None => None
      end
  | None => None
  end.

Fixpoint run (sched : list (nat * nat * schedule.method)) (cs : config)
  : option config :=
  match sched with
  | [] => Some cs
  | (t, i, m) :: sched' =>
      match step t i m cs with
      | Some cs' => run sched' cs'
      | None => None
      end
  end.

(** The calls of the loop of [percpu_rwlock::lock] run by thread [t], from
    shard [i] on, [k] shards to go. *)
Definition lock_calls (t i k : nat) : list (nat * nat * schedule.method) :=
  map (fun j => (t, j, schedule.lock)) (seq i k).

(** Shard configuration [c] once thread [t] has taken it exclusively. *)
Definition taken_by (t : nat) (c : schedule.config) : schedule.config :=
  {| schedule.the_lock := rw_spinlock.write_held;
     schedule.shared_holders := schedule.shared_holders c;
     schedule.exclusive_holders := t :: schedule.exclusive_holders c |}.

End sharded.

(** * Properties *)

(** ** The semaphore and one [rw_spinlock] *)

Section one_lock.
Import rw_spinlock.

Lemma free_is_init (s : rw_semaphore.t) :
  rw_semaphore.is_locked s = false -> s = rw_semaphore.init.
Proof.
  destruct s as [r w]. unfold rw_semaphore.is_locked, rw_semaphore.init. simpl.
  destruct w, r; simpl; intros; congruence.
Qed.

Lemma unlocked_is_fresh (l : t) : unlocked l -> l = after ctor.
Proof.
  destruct l as [s]. unfold unlocked. simpl. intros H.
  rewrite (free_is_init s H). reflexivity.
Qed.

Lemma try_lock_free (l : t) :
  rw_semaphore.is_locked (sem_ l) = false ->
  try_lock l = (Returns true, write_held,
                [sem_try_lock true; RWLOCK_ACQUIRED write_held 1%Z]).
Proof. intros H. rewrite (unlocked_is_fresh l H). reflexivity. Qed.

Lemma try_lock_held (l : t) :
  rw_semaphore.is_locked (sem_ l) = true ->
  try_lock l = (Returns false, l, [sem_try_lock false]).
Proof.
  destruct l as [s]. simpl. intros H.
  unfold try_lock, bind_, sem_ask, rw_semaphore.try_lock. simpl.
  rewrite H. reflexivity.
Qed.

Lemma lock_free (l : t) :
  rw_semaphore.is_locked (sem_ l) = false ->
  lock l = (Returns tt, write_held, [sem_lock; RWLOCK_ACQUIRED write_held 1%Z]).
Proof. intros H. rewrite (unlocked_is_fresh l H). reflexivity. Qed.

Lemma lock_held (l : t) :
  rw_semaphore.is_locked (sem_ l) = true ->
  lock l = (Blocks, l, [sem_lock]).
Proof.
  destruct l as [s]. simpl. intros H.
  unfold lock, bind_, sem_do, rw_semaphore.lock. simpl.
  rewrite H. reflexivity.
Qed.

Lemma unlock_write_held :
  unlock write_held
  = (Returns tt, after ctor, [RWLOCK_RELEASED write_held 1%Z; sem_unlock]).
Proof. reflexivity. Qed.

Lemma is_locked_run (l : t) :
  is_locked l
  = (Returns (rw_semaphore.is_locked (sem_ l)), l,
     [sem_is_locked (rw_semaphore.is_locked (sem_ l))]).
Proof. destruct l as [s]. reflexivity. Qed.

End one_lock.

(** ** Shards of a [percpu_rwlock] *)

Section shards.
Import percpu_rwlock.

Local Abbreviation fresh := {| padded_lock.lock := after rw_spinlock.ctor |}.
Local Abbreviation taken := {| padded_lock.lock := rw_spinlock.write_held |}.

Lemma not_held_is_fresh (pl : padded_lock.t) : held pl = false -> pl = fresh.
Proof.
  destruct pl as [l]. unfold held. simpl. intros H.
  rewrite (unlocked_is_fresh l H). reflexivity.
Qed.

(** A method run on the shard that follows [pre]. *)
Lemma at_shard_middle {A} (m : M rw_spinlock.t rw_spinlock.event A)
      n (pre suf : list padded_lock.t) pl r l tr :
  m (padded_lock.lock pl) = (r, l, tr) ->
  at_shard (length pre) m {| n_cpus_ := n; locks_ := pre ++ pl :: suf |}
  = (r, {| n_cpus_ := n; locks_ := pre ++ {| padded_lock.lock := l |} :: suf |},
     map (pair (length pre)) tr).
Proof.
  intros Hm. unfold at_shard. simpl.
  rewrite list_lookup_middle by reflexivity. rewrite Hm.
  rewrite insert_app_r_alt by reflexivity. rewrite Nat.sub_diag. reflexivity.
Qed.

Lemma at_shard_outside {A} (m : M rw_spinlock.t rw_spinlock.event A) i p :
  length (locks_ p) <= i -> at_shard i m p = (Undefined, p, []).
Proof.
  intros H. unfold at_shard. rewrite lookup_ge_None_2 by exact H. reflexivity.
Qed.

Lemma first_held_Some ls j :
  first_held ls = Some j ->
  j < length ls /\ take j ls = replicate j fresh /\
  exists pl, ls !! j = Some pl /\ held pl = true.
Proof.
  revert j. induction ls as [|pl ls IH]; simpl; intros j H; [discriminate|].
  destruct (held pl) eqn:Hpl.
  - injection H as <-. simpl. repeat split; [lia|]. exists pl. split; [reflexivity|exact Hpl].
  - destruct (first_held ls) as [j'|]; simpl in H; [|discriminate].
    injection H as <-. destruct (IH j' eq_refl) as (Hlt & Htk & pl' & Hl & Hh).
    simpl. rewrite Htk, (not_held_is_fresh pl Hpl).
    repeat split; [lia|]. exists pl'. split; assumption.
Qed.

Lemma first_held_None ls :
  first_held ls = None -> ls = replicate (length ls) fresh.
Proof.
  induction ls as [|pl ls IH]; simpl; intros H; [reflexivity|].
  destruct (held pl) eqn:Hpl; [discriminate|].
  destruct (first_held ls); [discriminate|].
  rewrite <- IH by reflexivity. rewrite (not_held_is_fresh pl Hpl). reflexivity.
Qed.

(** The rollback loop of [try_lock], run when shards [0..i-1] are the ones
    this call acquired: it releases them from [i-1] down to [0]. *)
Lemma try_lock_rollback_run n i suf :
  try_lock_rollback i {| n_cpus_ := n; locks_ := replicate i taken ++ suf |}
  = (Returns tt, {| n_cpus_ := n; locks_ := replicate i fresh ++ suf |},
     flat_map calls_of.unlocked (rev (seq 0 i))).
Proof.
  revert suf. induction i as [|j IH]; intros suf; [reflexivity|].
  cbn [try_lock_rollback]. unfold bind_.
  rewrite replicate_S_end, <- app_assoc. cbn [app].
  pose proof (at_shard_middle rw_spinlock.unlock n (replicate j taken) suf taken
                _ _ _ unlock_write_held) as E.
  rewrite length_replicate in E. rewrite E. clear E.
  rewrite IH. rewrite seq_S, rev_app_distr. cbn [rev app flat_map Nat.add].
  rewrite replicate_S_end, <- app_assoc. reflexivity.
Qed.

(** The loop of [try_lock] at index [i], shards [0..i-1] acquired. *)
Lemma try_lock_from_run n i suf :
  try_lock_from (length suf) i {| n_cpus_ := n; locks_ := replicate i taken ++ suf |}
  = match first_held suf with
    | None =>
        (Returns true,
         {| n_cpus_ := n; locks_ := replicate (i + length suf) taken |},
         flat_map calls_of.try_locked (seq i (length suf)))
    | Some j =>
        (Returns false,
         {| n_cpus_ := n; locks_ := replicate (i + j) fresh ++ drop j suf |},
         flat_map calls_of.try_locked (seq i j)
           ++ (i + j, rw_spinlock.sem_try_lock false)
           :: flat_map calls_of.unlocked (rev (seq 0 (i + j))))
    end.
Proof.
  revert i. induction suf as [|pl suf IH]; intros i.
  - simpl. rewrite app_nil_r, Nat.add_0_r. reflexivity.
  - cbn [length try_lock_from first_held]. unfold bind_.
    destruct (held pl) eqn:Hpl.
    + pose proof (at_shard_middle rw_spinlock.try_lock n (replicate i taken) suf pl
                    _ _ _ (try_lock_held _ Hpl)) as E.
      rewrite length_replicate in E. rewrite E. clear E.
      destruct pl as [l]. cbn [padded_lock.lock].
      rewrite try_lock_rollback_run. unfold ret_.
    rewrite app_nil_r, Nat.add_0_r. reflexivity.
    + pose proof (at_shard_middle rw_spinlock.try_lock n (replicate i taken) suf pl
                    _ _ _ (try_lock_free _ Hpl)) as E.
      rewrite length_replicate in E. rewrite E. clear E.
      specialize (IH (S i)). rewrite replicate_S_end, <- app_assoc in IH.
      cbn [app] in IH. rewrite IH.
      destruct (first_held suf) as [j|]; cbn [fmap option_fmap option_map].
      * rewrite <- Nat.add_succ_comm. reflexivity.
      * rewrite <- Nat.add_succ_comm. reflexivity.
Qed.

Lemma wf_length p : wf p -> Z.to_nat (n_cpus_ p) = length (locks_ p).
Proof. intros [_ H]. rewrite <- H. apply Nat2Z.id. Qed.

(** [try_lock] on a well-formed lock, by the first shard that is held. *)
Lemma try_lock_run p :
  wf p ->
  try_lock p
  = match first_held (locks_ p) with
    | None =>
        (Returns true, all_write_held (n_cpus_ p),
         flat_map calls_of.try_locked (seq 0 (Z.to_nat (n_cpus_ p))))
    | Some j => (Returns false, p, calls_of.failed_try_lock j)
    end.
Proof.
  intros Hwf. pose proof (wf_length p Hwf) as Hlen.
  destruct p as [n ls]. cbn [n_cpus_ locks_] in *.
  unfold try_lock. cbn [n_cpus_]. rewrite Hlen.
  pose proof (try_lock_from_run n 0 ls) as E. cbn [replicate app] in E.
  rewrite E. clear E.
  destruct (first_held ls) as [j|] eqn:Hf.
  - destruct (first_held_Some ls j Hf) as (_ & Htk & _).
    cbn [Nat.add]. rewrite <- Htk, take_drop. reflexivity.
  - cbn [Nat.add]. unfold all_write_held. rewrite Hlen. reflexivity.
Qed.

(** [is_locked] changes nothing and answers whether some shard is held. *)
Lemma is_locked_from_run n pre suf :
  exists tr,
    is_locked_from (length suf) (length pre) {| n_cpus_ := n; locks_ := pre ++ suf |}
    = (Returns (if first_held suf is Some _ then true else false),
       {| n_cpus_ := n; locks_ := pre ++ suf |}, tr).
Proof.
  revert pre. induction suf as [|pl suf IH]; intros pre.
  - eexists. reflexivity.
  - cbn [length is_locked_from first_held]. unfold bind_.
    rewrite (at_shard_middle rw_spinlock.is_locked n pre suf pl
               _ _ _ (is_locked_run _)).
    change (rw_semaphore.is_locked (rw_spinlock.sem_ (padded_lock.lock pl)))
      with (held pl).
    destruct (held pl) eqn:Hpl; destruct pl as [l]; cbn [padded_lock.lock].
    + eexists. reflexivity.
    + destruct (IH (pre ++ [{| padded_lock.lock := l |}])) as [tr E].
      rewrite length_app, Nat.add_1_r, <- app_assoc in E. cbn [app] in E.
      rewrite E. destruct (first_held suf); eexists; reflexivity.
Qed.

Lemma is_locked_run_wf p :
  wf p ->
  exists tr,
    is_locked p = (Returns (if first_held (locks_ p) is Some _ then true else false), p, tr).
Proof.
  intros Hwf. pose proof (wf_length p Hwf) as Hlen.
  destruct p as [n ls]. cbn [n_cpus_ locks_] in *.
  unfold is_locked. cbn [n_cpus_]. rewrite Hlen.
  exact (is_locked_from_run n [] ls).
Qed.

(** The loop of [lock] at index [i], shards [0..i-1] acquired: it goes on
    upwards and stops (spinning) at the first shard that is held. *)
Lemma lock_from_run n i suf :
  lock_from (length suf) i {| n_cpus_ := n; locks_ := replicate i taken ++ suf |}
  = match first_held suf with
    | None =>
        (Returns tt,
         {| n_cpus_ := n; locks_ := replicate (i + length suf) taken |},
         flat_map calls_of.locked (seq i (length suf)))
    | Some j =>
        (Blocks,
         {| n_cpus_ := n; locks_ := replicate (i + j) taken ++ drop j suf |},
         flat_map calls_of.locked (seq i j) ++ [(i + j, rw_spinlock.sem_lock)])
    end.
Proof.
  revert i. induction suf as [|pl suf IH]; intros i.
  - simpl. rewrite app_nil_r, Nat.add_0_r. reflexivity.
  - cbn [length lock_from first_held]. unfold bind_.
    destruct (held pl) eqn:Hpl.
    + pose proof (at_shard_middle rw_spinlock.lock n (replicate i taken) suf pl
                    _ _ _ (lock_held _ Hpl)) as E.
      rewrite length_replicate in E. rewrite E. clear E.
      destruct pl as [l]. cbn [padded_lock.lock].
      rewrite Nat.add_0_r. reflexivity.
    + pose proof (at_shard_middle rw_spinlock.lock n (replicate i taken) suf pl
                    _ _ _ (lock_free _ Hpl)) as E.
      rewrite length_replicate in E. rewrite E. clear E.
      specialize (IH (S i)). rewrite replicate_S_end, <- app_assoc in IH.
      cbn [app] in IH. rewrite IH.
      destruct (first_held suf) as [j|]; cbn [fmap option_fmap option_map];
        rewrite <- Nat.add_succ_comm; reflexivity.
Qed.

(** The loop of [unlock] at index [i], shards [i..i+k-1] held exclusively. *)
Lemma unlock_from_run n k i :
  unlock_from k i {| n_cpus_ := n; locks_ := replicate i fresh ++ replicate k taken |}
  = (Returns tt, {| n_cpus_ := n; locks_ := replicate (i + k) fresh |},
     flat_map calls_of.unlocked (seq i k)).
Proof.
  revert i. induction k as [|k IH]; intros i.
  - simpl. rewrite app_nil_r, Nat.add_0_r. reflexivity.
  - cbn [unlock_from replicate]. unfold bind_.
    pose proof (at_shard_middle rw_spinlock.unlock n (replicate i fresh)
                  (replicate k taken) taken _ _ _ unlock_write_held) as E.
    rewrite length_replicate in E. rewrite E. clear E.
    specialize (IH (S i)). rewrite replicate_S_end, <- app_assoc in IH.
    cbn [app] in IH. rewrite IH. rewrite <- Nat.add_succ_comm. reflexivity.
Qed.

Lemma lock_run p :
  wf p ->
  lock p
  = match first_held (locks_ p) with
    | None =>
        (Returns tt, all_write_held (n_cpus_ p),
         flat_map calls_of.locked (seq 0 (Z.to_nat (n_cpus_ p))))
    | Some j =>
        (Blocks,
         {| n_cpus_ := n_cpus_ p;
            locks_ := replicate j taken ++ drop j (locks_ p) |},
         flat_map calls_of.locked (seq 0 j) ++ [(j, rw_spinlock.sem_lock)])
    end.
Proof.
  intros Hwf. pose proof (wf_length p Hwf) as Hlen.
  destruct p as [n ls]. cbn [n_cpus_ locks_] in *.
  unfold lock. cbn [n_cpus_]. rewrite Hlen.
  pose proof (lock_from_run n 0 ls) as E. cbn [replicate app] in E.
  rewrite E. clear E.
  destruct (first_held ls) as [j|]; cbn [Nat.add]; [reflexivity|].
  unfold all_write_held. rewrite Hlen. reflexivity.
Qed.

Lemma unlock_run n :
  unlock (all_write_held n)
  = (Returns tt, all_unlocked n, flat_map calls_of.unlocked (seq 0 (Z.to_nat n))).
Proof.
  unfold unlock, all_write_held, all_unlocked. cbn [n_cpus_].
  exact (unlock_from_run n (Z.to_nat n) 0).
Qed.

Lemma wf_unlocked_is_all_unlocked p :
  wf p -> first_held (locks_ p) = None -> p = all_unlocked (n_cpus_ p).
Proof.
  intros Hwf Hf. pose proof (wf_length p Hwf) as Hlen.
  destruct p as [n ls]. cbn [n_cpus_ locks_] in *.
  unfold all_unlocked. rewrite Hlen. f_equal. apply first_held_None, Hf.
Qed.

End shards.

(** ** [percpu_rwlock::try_lock]: all or nothing *)

Section try_lock_rollback.
Import percpu_rwlock.

Lemma first_held_shards p i :
  first_held (locks_ p) = Some i ->
  i < length (locks_ p) /\
  (exists l, shard p i = Some l /\ rw_semaphore.is_locked (rw_spinlock.sem_ l) = true) /\
  (forall j, j < i -> shard p j = Some (after rw_spinlock.ctor)).
Proof.
  intros Hf. destruct (first_held_Some _ _ Hf) as (Hlt & Htk & pl & Hl & Hh).
  split; [exact Hlt|]. split.
  - exists (padded_lock.lock pl). unfold shard. rewrite Hl. split; [reflexivity|exact Hh].
  - intros j Hj. unfold shard.
    rewrite <- (lookup_take_lt (locks_ p) i j) by exact Hj.
    rewrite Htk, lookup_replicate_2 by exact Hj. reflexivity.
Qed.

Lemma in_try_locked i k e : In (k, e) (calls_of.try_locked i) -> k = i /\ e <> rw_spinlock.sem_try_lock false.
Proof.
  unfold calls_of.try_locked. simpl.
  intros [H|[H|[]]]; injection H as <- <-; split; congruence.
Qed.

Lemma in_unlocked i k e : In (k, e) (calls_of.unlocked i) -> k = i /\ e <> rw_spinlock.sem_try_lock false.
Proof.
  unfold calls_of.unlocked. simpl.
  intros [H|[H|[]]]; injection H as <- <-; split; congruence.
Qed.

(** In a failing [try_lock] no call is made on a shard above the one that
    failed, and the only failed attempt is on that one. *)
Lemma in_failed_try_lock i k e :
  In (k, e) (calls_of.failed_try_lock i) ->
  k <= i /\ (e = rw_spinlock.sem_try_lock false -> k = i).
Proof.
  unfold calls_of.failed_try_lock. rewrite in_app_iff. simpl.
  intros [H|[H|H]].
  - apply in_flat_map in H as (x & Hx & H). apply in_seq in Hx.
    apply in_try_locked in H as [-> Hne]. split; [lia|]. intros ->. congruence.
  - injection H as <- <-. split; [lia|reflexivity].
  - apply in_flat_map in H as (x & Hx & H). apply in_rev, in_seq in Hx.
    apply in_unlocked in H as [-> Hne]. split; [lia|]. intros ->. congruence.
Qed.

(** C1, as the code has it: [try_lock] attempts the shards upwards.  When the
    attempt on shard [i] is the first to fail, it releases the shards it had
    acquired, [i-1] down to [0], and returns [false]; every shard is then in
    the state it had before the call, so the shard at [i] is still held by
    its other holder and [is_locked()] answers [true].  When all [N]
    attempts succeed it returns [true] with every shard held. *)
Theorem try_lock_all_or_nothing (p : t) :
  wf p ->
  (exists i,
      i < Z.to_nat (n_cpus_ p) /\
      (exists l, shard p i = Some l /\
                 rw_semaphore.is_locked (rw_spinlock.sem_ l) = true) /\
      (forall j, j < i -> shard p j = Some (after rw_spinlock.ctor)) /\
      try_lock p = (Returns false, p, calls_of.failed_try_lock i) /\
      result (is_locked (after (try_lock p))) = Returns true)
  \/ try_lock p
     = (Returns true, all_write_held (n_cpus_ p),
        flat_map calls_of.try_locked (seq 0 (Z.to_nat (n_cpus_ p)))).
Proof.
  intros Hwf. rewrite (try_lock_run p Hwf).
  destruct (first_held (locks_ p)) as [i|] eqn:Hf; [left|right; reflexivity].
  destruct (first_held_shards p i Hf) as (Hlt & Hheld & Hbelow).
  exists i. rewrite (wf_length p Hwf). repeat split; try assumption.
  cbn [after fst snd]. destruct (is_locked_run_wf p Hwf) as [tr E].
  rewrite E, Hf. reflexivity.
Qed.

Lemma try_lock_all_or_nothing_witness :
  wf {| n_cpus_ := 3;
        locks_ := [ {| padded_lock.lock := after rw_spinlock.ctor |};
                    {| padded_lock.lock := after rw_spinlock.ctor |};
                    {| padded_lock.lock := rw_spinlock.write_held |} ] |}
  /\ try_lock {| n_cpus_ := 3;
                 locks_ := [ {| padded_lock.lock := after rw_spinlock.ctor |};
                             {| padded_lock.lock := after rw_spinlock.ctor |};
                             {| padded_lock.lock := rw_spinlock.write_held |} ] |}
     = (Returns false,
        {| n_cpus_ := 3;
           locks_ := [ {| padded_lock.lock := after rw_spinlock.ctor |};
                       {| padded_lock.lock := after rw_spinlock.ctor |};
                       {| padded_lock.lock := rw_spinlock.write_held |} ] |},
        calls_of.failed_try_lock 2).
Proof.
  assert (Hwf : wf {| n_cpus_ := 3;
        locks_ := [ {| padded_lock.lock := after rw_spinlock.ctor |};
                    {| padded_lock.lock := after rw_spinlock.ctor |};
                    {| padded_lock.lock := rw_spinlock.write_held |} ] |})
    by (split; [reflexivity | reflexivity]).
  split; [exact Hwf|].
  destruct (try_lock_all_or_nothing _ Hwf) as [(i & _ & _ & _ & E & _)|E].
  - vm_compute. reflexivity.
  - vm_compute in E. discriminate E.
Defined.

(** C1, as the specification words it, fails: after a [try_lock] that
    failed, a shard is still held (by the holder that made it fail) and
    [is_locked()] answers [true]. *)
Lemma try_lock_failure_is_locked :
  exists p : t,
    wf p /\ result (try_lock p) = Returns false /\
    shard (after (try_lock p)) 1 = Some rw_spinlock.write_held /\
    result (is_locked (after (try_lock p))) = Returns true.
Proof.
  exists {| n_cpus_ := 2;
            locks_ := [ {| padded_lock.lock := after rw_spinlock.ctor |};
                        {| padded_lock.lock := rw_spinlock.write_held |} ] |}.
  repeat split.
Qed.

(** C10: in a [try_lock] that fails, the failed attempt is on one shard [i]
    (the first that is held); no call of any kind, on the semaphore or to
    the race detector, is made on a shard above [i], and those shards are as
    they were. *)
Theorem try_lock_failure_frame (p : t) :
  wf p ->
  result (try_lock p) = Returns false ->
  exists i,
    In (i, rw_spinlock.sem_try_lock false) (calls (try_lock p)) /\
    (forall j, In (j, rw_spinlock.sem_try_lock false) (calls (try_lock p)) -> j = i) /\
    (forall j e, In (j, e) (calls (try_lock p)) -> j <= i) /\
    (forall j, i < j -> shard (after (try_lock p)) j = shard p j).
Proof.
  intros Hwf. rewrite (try_lock_run p Hwf).
  destruct (first_held (locks_ p)) as [i|]; cbn [result after calls fst snd];
    [intros _|discriminate].
  exists i. repeat split.
  - unfold calls_of.failed_try_lock. rewrite in_app_iff. right. left. reflexivity.
  - intros j Hj. apply in_failed_try_lock in Hj as [_ Hj]. apply Hj. reflexivity.
  - intros j e Hj. apply in_failed_try_lock in Hj as [Hj _]. exact Hj.
Qed.

Lemma try_lock_failure_frame_witness :
  exists i,
    In (i, rw_spinlock.sem_try_lock false)
       (calls (try_lock {| n_cpus_ := 3;
                           locks_ := [ {| padded_lock.lock := after rw_spinlock.ctor |};
                                       {| padded_lock.lock := rw_spinlock.write_held |};
                                       {| padded_lock.lock := after rw_spinlock.ctor |} ] |})).
Proof.
  destruct (try_lock_failure_frame
              {| n_cpus_ := 3;
                 locks_ := [ {| padded_lock.lock := after rw_spinlock.ctor |};
                             {| padded_lock.lock := rw_spinlock.write_held |};
                             {| padded_lock.lock := after rw_spinlock.ctor |} ] |})
    as (i & Hi & _).
  - split; reflexivity.
  - reflexivity.
  - exists i. exact Hi.
Defined.

End try_lock_rollback.

(** ** [percpu_rwlock::lock] and [unlock]: order, and the round trip *)

Section lock_unlock.
Import percpu_rwlock.

(** C4: [lock] goes through the shards upwards from [0].  It returns with
    every shard [0..N-1] acquired in that order, or it spins on the first
    shard [j] that is held, with [0..j-1] acquired in that order; it returns
    whenever no shard is held.  [unlock], on the lock with every shard held
    as [lock] leaves it, releases the shards [0..N-1] in that order. *)
Theorem lock_unlock_ascending (p : t) :
  wf p ->
  (lock p
   = (Returns tt, all_write_held (n_cpus_ p),
      flat_map calls_of.locked (seq 0 (Z.to_nat (n_cpus_ p))))
   \/ exists j,
      j < Z.to_nat (n_cpus_ p) /\
      (exists l, shard p j = Some l /\
                 rw_semaphore.is_locked (rw_spinlock.sem_ l) = true) /\
      result (lock p) = Blocks /\
      calls (lock p)
      = flat_map calls_of.locked (seq 0 j) ++ [(j, rw_spinlock.sem_lock)])
  /\ (result (is_locked p) = Returns false -> result (lock p) = Returns tt)
  /\ unlock (all_write_held (n_cpus_ p))
     = (Returns tt, all_unlocked (n_cpus_ p),
        flat_map calls_of.unlocked (seq 0 (Z.to_nat (n_cpus_ p)))).
Proof.
  intros Hwf. split; [|split].
  - rewrite (lock_run p Hwf).
    destruct (first_held (locks_ p)) as [j|] eqn:Hf; [right|left; reflexivity].
    destruct (first_held_shards p j Hf) as (Hlt & Hheld & _).
    exists j. rewrite (wf_length p Hwf). repeat split; assumption.
  - destruct (is_locked_run_wf p Hwf) as [tr E]. rewrite E, (lock_run p Hwf).
    destruct (first_held (locks_ p)); cbn [result fst]; [discriminate|reflexivity].
  - apply unlock_run.
Qed.

Lemma lock_unlock_ascending_witness :
  wf (all_unlocked 3) /\
  lock (all_unlocked 3)
  = (Returns tt, all_write_held 3,
     [(0, rw_spinlock.sem_lock); (0, rw_spinlock.RWLOCK_ACQUIRED rw_spinlock.write_held 1%Z);
      (1, rw_spinlock.sem_lock); (1, rw_spinlock.RWLOCK_ACQUIRED rw_spinlock.write_held 1%Z);
      (2, rw_spinlock.sem_lock); (2, rw_spinlock.RWLOCK_ACQUIRED rw_spinlock.write_held 1%Z)]) /\
  unlock (all_write_held 3)
  = (Returns tt, all_unlocked 3,
     [(0, rw_spinlock.RWLOCK_RELEASED rw_spinlock.write_held 1%Z); (0, rw_spinlock.sem_unlock);
      (1, rw_spinlock.RWLOCK_RELEASED rw_spinlock.write_held 1%Z); (1, rw_spinlock.sem_unlock);
      (2, rw_spinlock.RWLOCK_RELEASED rw_spinlock.write_held 1%Z); (2, rw_spinlock.sem_unlock)]).
Proof.
  assert (Hwf : wf (all_unlocked 3)) by (split; reflexivity).
  split; [exact Hwf|].
  destruct (lock_unlock_ascending (all_unlocked 3) Hwf) as ([E|(j & _ & _ & E & _)] & _ & U).
  - split; [exact E|exact U].
  - discriminate E.
Defined.

End lock_unlock.

Section round_trip.
Import rw_spinlock.

(** A shared hold taken on a lock that is not write-held is given back by
    [unlock_shared], whatever the number of other readers. *)
Lemma lock_shared_unlock_shared (l : t) :
  rw_semaphore.writer (sem_ l) = false ->
  (let! _ := lock_shared in unlock_shared) l
  = (Returns tt, l,
     [sem_lock_shared;
      RWLOCK_ACQUIRED {| sem_ := {| rw_semaphore.readers := S (rw_semaphore.readers (sem_ l));
                                    rw_semaphore.writer := false |} |} 0%Z;
      RWLOCK_RELEASED {| sem_ := {| rw_semaphore.readers := S (rw_semaphore.readers (sem_ l));
                                    rw_semaphore.writer := false |} |} 0%Z;
      sem_unlock_shared]).
Proof.
  destruct l as [[r w]]. simpl. intros ->. reflexivity.
Qed.

Lemma lock_unlock (l : t) :
  unlocked l ->
  (let! _ := lock in unlock) l
  = (Returns tt, l,
     [sem_lock; RWLOCK_ACQUIRED write_held 1%Z;
      RWLOCK_RELEASED write_held 1%Z; sem_unlock]).
Proof. intros H. rewrite (unlocked_is_fresh l H). reflexivity. Qed.

(** The same on the shard a handle refers to. *)
Lemma at_shard_lock_shared_unlock_shared (p : percpu_rwlock.t) (i : nat) (l : t) :
  percpu_rwlock.shard p i = Some l ->
  rw_semaphore.writer (sem_ l) = false ->
  exists tr,
    (let! _ := percpu_rwlock.at_shard i lock_shared in
     percpu_rwlock.at_shard i unlock_shared) p
    = (Returns tt, p, tr).
Proof.
  unfold percpu_rwlock.shard. intros Hs Hw.
  destruct (percpu_rwlock.locks_ p !! i) as [pl|] eqn:Hl; [|discriminate].
  injection Hs as <-.
  destruct (list_elem_of_split_length _ _ _ Hl) as (pre & suf & Hp & Hi).
  destruct p as [n ls]. cbn [percpu_rwlock.locks_] in *. subst ls i.
  destruct pl as [[[r w]]]. cbn [padded_lock.lock sem_ rw_semaphore.writer] in Hw.
  subst w. unfold bind_.
  erewrite (at_shard_middle lock_shared n pre suf) by reflexivity.
  erewrite (at_shard_middle unlock_shared n pre suf) by reflexivity.
  eexists. reflexivity.
Qed.

Lemma get_lock_Returns (cpu : Z) (p : percpu_rwlock.t) (i : nat) :
  percpu_rwlock.get_lock cpu p = Returns i ->
  (cpu < percpu_rwlock.n_cpus_ p)%Z /\ Z.of_nat i = cpu /\
  i < length (percpu_rwlock.locks_ p).
Proof.
  unfold percpu_rwlock.get_lock.
  destruct (cpu <? percpu_rwlock.n_cpus_ p)%Z eqn:Hc; cbn [negb]; [|discriminate].
  destruct (0 <=? cpu)%Z eqn:H0; cbn [andb]; [|discriminate].
  destruct (cpu <? Z.of_nat (length (percpu_rwlock.locks_ p)))%Z eqn:Hl; [|discriminate].
  intros H. injection H as <-. lia.
Qed.

Lemma shard_round_trip (p : percpu_rwlock.t) (cpu : Z) (i : nat) :
  percpu_rwlock.wf p ->
  first_held (percpu_rwlock.locks_ p) = None ->
  percpu_rwlock.get_lock cpu p = Returns i ->
  exists tr,
    (let! _ := percpu_rwlock.at_shard i lock_shared in
     percpu_rwlock.at_shard i unlock_shared) p
    = (Returns tt, p, tr).
Proof.
  intros Hwf Hf Hi. apply get_lock_Returns in Hi as (_ & _ & Hi).
  apply at_shard_lock_shared_unlock_shared with (l := after ctor); [|reflexivity].
  unfold percpu_rwlock.shard. rewrite (first_held_None _ Hf).
  rewrite lookup_replicate_2 by exact Hi. reflexivity.
Qed.

(** C8: on a lock nobody holds, [lock(); unlock();] and
    [lock_shared(); unlock_shared();] return and leave the lock as it was,
    unlocked; so do, on a sharded lock nobody holds, [lock(); unlock();]
    and the shared pair taken through the handle [get_lock()] returned. *)
Theorem lock_unlock_round_trip
        (l : t) (p : percpu_rwlock.t) (cpu : Z) (i : nat) :
  unlocked l ->
  percpu_rwlock.wf p ->
  result (percpu_rwlock.is_locked p) = Returns false ->
  percpu_rwlock.get_lock cpu p = Returns i ->
  (restores (let! _ := lock in unlock) l /\
   result (is_locked (after ((let! _ := lock in unlock) l))) = Returns false)
  /\ (restores (let! _ := lock_shared in unlock_shared) l /\
      result (is_locked (after ((let! _ := lock_shared in unlock_shared) l)))
      = Returns false)
  /\ (restores (let! _ := percpu_rwlock.lock in percpu_rwlock.unlock) p /\
      result (percpu_rwlock.is_locked
                (after ((let! _ := percpu_rwlock.lock in percpu_rwlock.unlock) p)))
      = Returns false)
  /\ (restores (let! _ := percpu_rwlock.at_shard i lock_shared in
                percpu_rwlock.at_shard i unlock_shared) p /\
      result (percpu_rwlock.is_locked
                (after ((let! _ := percpu_rwlock.at_shard i lock_shared in
                         percpu_rwlock.at_shard i unlock_shared) p)))
      = Returns false).
Proof.
  intros Hl Hwf Hp Hi.
  assert (Hq : result (is_locked l) = Returns false).
  { rewrite is_locked_run. cbn [result fst]. f_equal. exact Hl. }
  assert (Hf : first_held (percpu_rwlock.locks_ p) = None).
  { destruct (is_locked_run_wf p Hwf) as [tr E]. rewrite E in Hp.
    destruct (first_held (percpu_rwlock.locks_ p)); [discriminate Hp|reflexivity]. }
  unfold restores. repeat split.
  - rewrite (lock_unlock l Hl). reflexivity.
  - rewrite (lock_unlock l Hl). reflexivity.
  - rewrite (lock_unlock l Hl). exact Hq.
  - rewrite lock_shared_unlock_shared; [reflexivity|].
    rewrite (unlocked_is_fresh l Hl). reflexivity.
  - rewrite lock_shared_unlock_shared; [reflexivity|].
    rewrite (unlocked_is_fresh l Hl). reflexivity.
  - rewrite lock_shared_unlock_shared; [exact Hq|].
    rewrite (unlocked_is_fresh l Hl). reflexivity.
  - unfold bind_. rewrite (lock_run p Hwf), Hf, unlock_run. reflexivity.
  - unfold bind_. rewrite (lock_run p Hwf), Hf, unlock_run. cbn [after fst snd].
    symmetry. apply wf_unlocked_is_all_unlocked; assumption.
  - unfold bind_. rewrite (lock_run p Hwf), Hf, unlock_run. cbn [after fst snd].
    rewrite <- (wf_unlocked_is_all_unlocked p Hwf Hf). exact Hp.
  - destruct (shard_round_trip p cpu i Hwf Hf Hi) as [tr E]. rewrite E. reflexivity.
  - destruct (shard_round_trip p cpu i Hwf Hf Hi) as [tr E]. rewrite E. reflexivity.
  - destruct (shard_round_trip p cpu i Hwf Hf Hi) as [tr E]. rewrite E. exact Hp.
Qed.

Lemma lock_unlock_round_trip_witness :
  restores (let! _ := percpu_rwlock.lock in percpu_rwlock.unlock)
           (percpu_rwlock.all_unlocked 4)
  /\ restores (let! _ := percpu_rwlock.at_shard 2 lock_shared in
               percpu_rwlock.at_shard 2 unlock_shared)
              (percpu_rwlock.all_unlocked 4).
Proof.
  destruct (lock_unlock_round_trip (after ctor) (percpu_rwlock.all_unlocked 4) 2%Z 2)
    as (_ & _ & [E _] & [S _]).
  - reflexivity.
  - split; reflexivity.
  - reflexivity.
  - reflexivity.
  - split; [exact E|exact S].
Defined.

End round_trip.

(** ** Construction, and what stays fixed afterwards *)

Section lifetime.
Import percpu_rwlock.

Lemma ret_keeps_shape {A} (a : A) : keeps_shape (ret_ a).
Proof. intros p. reflexivity. Qed.

Lemma bind_keeps_shape {A B} (m : M t event A) (k : A -> M t event B) :
  keeps_shape m -> (forall a, keeps_shape (k a)) -> keeps_shape (bind_ m k).
Proof.
  intros Hm Hk p. unfold bind_. specialize (Hm p).
  destruct (m p) as [[[a| | |] p1] t1]; cbn [after fst snd] in *; try exact Hm.
  specialize (Hk a p1). destruct (k a p1) as [[r p2] t2].
  cbn [after fst snd] in *. congruence.
Qed.

Lemma at_shard_keeps_shape {A} i (m : M rw_spinlock.t rw_spinlock.event A) :
  keeps_shape (at_shard i m).
Proof.
  intros p. unfold at_shard. destruct (locks_ p !! i) as [pl|]; [|reflexivity].
  destruct (m (padded_lock.lock pl)) as [[r l] tr].
  unfold shape. cbn [after fst snd n_cpus_ locks_]. rewrite length_insert. reflexivity.
Qed.

Lemma try_lock_rollback_keeps_shape i : keeps_shape (try_lock_rollback i).
Proof.
  induction i as [|j IH]; cbn [try_lock_rollback].
  - apply ret_keeps_shape.
  - apply bind_keeps_shape; [apply at_shard_keeps_shape|intros _; exact IH].
Qed.

Lemma try_lock_from_keeps_shape k : forall i, keeps_shape (try_lock_from k i).
Proof.
  induction k as [|k IH]; intros i; cbn [try_lock_from].
  - apply ret_keeps_shape.
  - apply bind_keeps_shape; [apply at_shard_keeps_shape|].
    intros [|]; [apply IH|].
    apply bind_keeps_shape; [apply try_lock_rollback_keeps_shape|].
    intros _. apply ret_keeps_shape.
Qed.

Lemma is_locked_from_keeps_shape k : forall i, keeps_shape (is_locked_from k i).
Proof.
  induction k as [|k IH]; intros i; cbn [is_locked_from].
  - apply ret_keeps_shape.
  - apply bind_keeps_shape; [apply at_shard_keeps_shape|].
    intros [|]; [apply ret_keeps_shape|apply IH].
Qed.

Lemma lock_from_keeps_shape k : forall i, keeps_shape (lock_from k i).
Proof.
  induction k as [|k IH]; intros i; cbn [lock_from].
  - apply ret_keeps_shape.
  - apply bind_keeps_shape; [apply at_shard_keeps_shape|intros _; apply IH].
Qed.

Lemma unlock_from_keeps_shape k : forall i, keeps_shape (unlock_from k i).
Proof.
  induction k as [|k IH]; intros i; cbn [unlock_from].
  - apply ret_keeps_shape.
  - apply bind_keeps_shape; [apply at_shard_keeps_shape|intros _; apply IH].
Qed.

Lemma run_method_keeps_shape c : keeps_shape (client.run_method c).
Proof.
  destruct c; cbn [client.run_method].
  - apply bind_keeps_shape; [|intros _; apply ret_keeps_shape].
    intros p. apply try_lock_from_keeps_shape.
  - apply bind_keeps_shape; [|intros _; apply ret_keeps_shape].
    intros p. apply is_locked_from_keeps_shape.
  - intros p. apply lock_from_keeps_shape.
  - intros p. apply unlock_from_keeps_shape.
  - apply at_shard_keeps_shape.
Qed.

(** No sequence of calls changes [n_cpus_] or the size of [locks_]. *)
Lemma run_keeps_shape cs : forall p, shape (client.run cs p) = shape p.
Proof.
  induction cs as [|c cs IH]; intros p; cbn [client.run]; [reflexivity|].
  rewrite IH. apply run_method_keeps_shape.
Qed.

Lemma get_lock_by_shape (cpu : Z) (p p' : t) :
  shape p = shape p' -> get_lock cpu p = get_lock cpu p'.
Proof.
  unfold shape, get_lock. intros H. injection H as Hn Hl. rewrite Hn, Hl. reflexivity.
Qed.

Lemma ctor_ok (n : Z) :
  (0 < n)%Z ->
  fst (ctor (n, 0%Z)) = Returns (all_unlocked n).
Proof.
  intros Hn. unfold ctor. cbn [Z.eqb negb].
  destruct (0 <? n)%Z eqn:E; [reflexivity|lia].
Qed.

Lemma all_unlocked_wf (n : Z) : (0 < n)%Z -> wf (all_unlocked n).
Proof.
  intros Hn. split; [exact Hn|].
  unfold all_unlocked. cbn [locks_ n_cpus_]. rewrite length_replicate. lia.
Qed.

Lemma all_unlocked_first_held (n : nat) :
  first_held (replicate n {| padded_lock.lock := after rw_spinlock.ctor |}) = None.
Proof. induction n as [|n IH]; [reflexivity|]. cbn. cbn in IH. rewrite IH. reflexivity. Qed.

(** C5: the constructor aborts when the processor-count service reports an
    error ([errno] not 0) or a count [N <= 0]; otherwise it returns a lock
    with [n_cpus_ = N] and exactly [N] shards, each default-constructed and
    unlocked; and no sequence of calls on the lock, whatever their outcomes,
    changes [n_cpus_] or the number of shards. *)
Theorem ctor_aborts_or_allocates (n errno : Z) :
  ((errno <> 0 \/ n <= 0)%Z /\ ctor (n, errno) = (Aborts, []))
  \/ ((errno = 0 /\ 0 < n)%Z /\
      exists p,
        fst (ctor (n, errno)) = Returns p /\
        n_cpus_ p = n /\
        length (locks_ p) = Z.to_nat n /\
        (forall i, i < Z.to_nat n -> shard p i = Some (after rw_spinlock.ctor)) /\
        rw_spinlock.unlocked (after rw_spinlock.ctor) /\
        result (is_locked p) = Returns false /\
        forall cs,
          n_cpus_ (client.run cs p) = n /\
          length (locks_ (client.run cs p)) = Z.to_nat n).
Proof.
  destruct (Z.eq_dec errno 0%Z) as [->|He].
  - destruct (Z_lt_le_dec 0%Z n) as [Hn|Hn].
    + right. split; [split; [reflexivity|exact Hn]|].
      exists (all_unlocked n). split; [apply ctor_ok, Hn|].
      assert (Hlen : length (locks_ (all_unlocked n)) = Z.to_nat n)
        by apply length_replicate.
      repeat split.
      * exact Hlen.
      * intros i Hi. unfold shard, all_unlocked. cbn [locks_].
        rewrite lookup_replicate_2 by exact Hi. reflexivity.
      * destruct (is_locked_run_wf _ (all_unlocked_wf n Hn)) as [tr E].
        rewrite E. unfold all_unlocked. cbn [locks_].
        rewrite all_unlocked_first_held. reflexivity.
      * pose proof (run_keeps_shape cs (all_unlocked n)) as H.
        unfold shape in H. injection H as H _. exact H.
      * pose proof (run_keeps_shape cs (all_unlocked n)) as H.
        unfold shape in H. injection H as _ H. rewrite H. exact Hlen.
    + left. split; [right; exact Hn|]. unfold ctor. cbn [Z.eqb negb].
      destruct (0 <? n)%Z eqn:E; [lia|reflexivity].
  - left. split; [left; exact He|]. unfold ctor.
    destruct (errno =? 0)%Z eqn:E; [lia|reflexivity].
Qed.

(** C9: the shard [get_lock] returns is fixed by the processor id and by
    the number of shards; the state of the shards plays no part.  Two calls
    on locks of the same shape that observe the same processor id have the
    same outcome; a handle returned is the shard at that id; and on a
    constructed lock every id in [[0, N)] does get a handle, the shard at
    that index, which both calls return. *)
Theorem get_lock_by_cpu_only (cpu : Z) (p p' : t) :
  n_cpus_ p = n_cpus_ p' ->
  length (locks_ p) = length (locks_ p') ->
  get_lock cpu p = get_lock cpu p' /\
  (forall i, get_lock cpu p = Returns i -> Z.of_nat i = cpu) /\
  (wf p -> (0 <= cpu < n_cpus_ p)%Z ->
   get_lock cpu p = Returns (Z.to_nat cpu) /\
   get_lock cpu p' = Returns (Z.to_nat cpu) /\
   (exists l, shard p (Z.to_nat cpu) = Some l) /\
   (exists l', shard p' (Z.to_nat cpu) = Some l')).
Proof.
  intros Hn Hl.
  assert (Heq : get_lock cpu p = get_lock cpu p').
  { apply get_lock_by_shape. unfold shape. rewrite Hn, Hl. reflexivity. }
  split; [exact Heq|]. split.
  - intros i Hi. apply get_lock_Returns in Hi. tauto.
  - intros [_ Hlen] Hcpu.
    assert (Hret : get_lock cpu p = Returns (Z.to_nat cpu)).
    { unfold get_lock. rewrite Hlen.
      destruct (Z.ltb_spec cpu (n_cpus_ p)) as [_|]; [|lia].
      destruct (Z.leb_spec 0 cpu) as [_|]; [|lia]. reflexivity. }
    assert (Hin : Z.to_nat cpu < length (locks_ p)) by lia.
    split; [exact Hret|]. split; [rewrite <- Heq; exact Hret|].
    unfold shard. split.
    + destruct (lookup_lt_is_Some_2 (locks_ p) (Z.to_nat cpu) Hin) as [pl E].
      exists (padded_lock.lock pl). rewrite E. reflexivity.
    + rewrite Hl in Hin.
      destruct (lookup_lt_is_Some_2 (locks_ p') (Z.to_nat cpu) Hin) as [pl E].
      exists (padded_lock.lock pl). rewrite E. reflexivity.
Qed.

Lemma get_lock_by_cpu_only_witness :
  get_lock 1 (all_unlocked 2) = get_lock 1 (all_write_held 2) /\
  get_lock 1 (all_unlocked 2) = Returns 1 /\
  get_lock 1 (all_write_held 2) = Returns 1 /\
  shard (all_unlocked 2) 1 = Some (after rw_spinlock.ctor) /\
  shard (all_write_held 2) 1 = Some rw_spinlock.write_held.
Proof.
  destruct (get_lock_by_cpu_only 1 (all_unlocked 2) (all_write_held 2))
    as (E & _ & H).
  - reflexivity.
  - reflexivity.
  - destruct H as (E1 & E2 & _ & _).
    + split; reflexivity.
    + unfold all_unlocked. cbn [n_cpus_]. lia.
    + split; [exact E|]. split; [exact E1|]. split; [exact E2|].
      split; reflexivity.
Defined.

(** The same over the life of one lock: whatever calls were made in
    between, by whichever thread, the same processor id gives the same
    shard. *)
Lemma get_lock_after_calls (cpu : Z) (p : t) (cs : list client.method) :
  get_lock cpu (client.run cs p) = get_lock cpu p.
Proof. apply get_lock_by_shape, run_keeps_shape. Qed.

(** What [get_lock] checks, on a well-formed lock. *)
Lemma get_lock_run (cpu : Z) (p : t) :
  wf p ->
  get_lock cpu p
  = if (cpu <? n_cpus_ p)%Z
    then if (0 <=? cpu)%Z then Returns (Z.to_nat cpu) else Undefined
    else Aborts.
Proof.
  intros [_ Hlen]. unfold get_lock. rewrite Hlen.
  destruct (cpu <? n_cpus_ p)%Z, (0 <=? cpu)%Z; reflexivity.
Qed.

(** C2, where the code falls short of it: [sched_getcpu()] answers [-1]
    when it fails; [CHECK_LT(cpu, n_cpus_)] lets a negative id through, and
    the shard array is indexed below its first element. *)
Theorem get_lock_negative_cpu :
  wf (all_unlocked 4) /\
  get_lock (-1) (all_unlocked 4) = Undefined /\
  get_lock 4 (all_unlocked 4) = Aborts /\
  get_lock 3 (all_unlocked 4) = Returns 3.
Proof. repeat split. Qed.

End lifetime.

(** ** [rw_spinlock]: the annotations *)

Section annotations.
Import rw_spinlock.

(** C7: [try_lock] returns what [sem_.try_lock()] returned and leaves the
    semaphore as that call left it.  On success its calls are the attempt
    and then the exclusive (slot 1) "acquired" annotation; on failure the
    attempt is its only call and the lock is as it was. *)
Theorem try_lock_annotates_on_success (this : t) :
  result (try_lock this) = Returns (fst (rw_semaphore.try_lock (sem_ this))) /\
  sem_ (after (try_lock this)) = snd (rw_semaphore.try_lock (sem_ this)) /\
  if fst (rw_semaphore.try_lock (sem_ this))
  then calls (try_lock this)
       = [sem_try_lock true; RWLOCK_ACQUIRED (after (try_lock this)) 1%Z]
  else calls (try_lock this) = [sem_try_lock false] /\ after (try_lock this) = this.
Proof.
  destruct (rw_semaphore.is_locked (sem_ this)) eqn:H.
  - rewrite (try_lock_held this H). unfold rw_semaphore.try_lock. rewrite H.
    repeat split.
  - rewrite (try_lock_free this H). unfold rw_semaphore.try_lock. rewrite H.
    rewrite (unlocked_is_fresh this H). repeat split.
Qed.

(** C6, as the code has it: an acquiring method calls the semaphore first
    and emits "acquired" once that call has returned; a releasing method
    emits "released" first and calls the semaphore afterwards.  Every
    annotation is therefore emitted while the lock is physically held: the
    detector sees no "acquired" before the hold and no "released" after it.
    (The release of a mode that is not held, which the contract leaves
    undefined, is the one case with no such guarantee.) *)
Theorem annotations_inside_the_hold (this : t) :
  ((result (lock_shared this) = Blocks /\ calls (lock_shared this) = [sem_lock_shared])
   \/ (result (lock_shared this) = Returns tt /\
       calls (lock_shared this)
       = [sem_lock_shared; RWLOCK_ACQUIRED (after (lock_shared this)) 0%Z] /\
       rw_semaphore.is_locked (sem_ (after (lock_shared this))) = true))
  /\ ((result (lock this) = Blocks /\ calls (lock this) = [sem_lock])
      \/ (result (lock this) = Returns tt /\
          calls (lock this) = [sem_lock; RWLOCK_ACQUIRED (after (lock this)) 1%Z] /\
          rw_semaphore.is_write_locked (sem_ (after (lock this))) = true))
  /\ (calls (unlock_shared this) = [RWLOCK_RELEASED this 0%Z; sem_unlock_shared] /\
      (result (unlock_shared this) = Undefined
       \/ (result (unlock_shared this) = Returns tt /\
           rw_semaphore.is_locked (sem_ this) = true)))
  /\ (calls (unlock this) = [RWLOCK_RELEASED this 1%Z; sem_unlock] /\
      (result (unlock this) = Undefined
       \/ (result (unlock this) = Returns tt /\
           rw_semaphore.is_write_locked (sem_ this) = true))).
Proof.
  destruct this as [[r w]].
  destruct w; destruct r as [|r]; cbn;
    repeat split; try (left; repeat split; fail); right; repeat split.
Qed.

(** C6, as the specification words it, fails: the "released" annotation is
    seen while the lock is still physically held. *)
Lemma released_seen_while_held :
  exists this : t,
    unlock this
    = (Returns tt, after ctor, [RWLOCK_RELEASED this 1%Z; sem_unlock]) /\
    rw_semaphore.is_locked (sem_ this) = true.
Proof. exists write_held. split; reflexivity. Qed.

End annotations.

(** ** Threads on one [rw_spinlock]: mutual exclusion *)

Section mutual_exclusion.
Import schedule.

Lemma holds_remove_one t l :
  holds t l = true -> length l = S (length (remove_one t l)).
Proof.
  induction l as [|u l IH]; cbn; [discriminate|].
  destruct (t =? u); cbn; [reflexivity|]. intros H. rewrite <- IH by exact H. reflexivity.
Qed.

Lemma initial_consistent : consistent initial.
Proof. split; reflexivity. Qed.

Lemma step_consistent t m c c' :
  consistent c -> step t m c = Some c' -> consistent c'.
Proof.
  destruct c as [[[r w]] sh ex]. unfold consistent. cbn. intros [Hr Hw].
  destruct m; cbn.
  - destruct w; cbn; intros H; injection H as <-; cbn.
    + split; assumption.
    + split; [congruence|assumption].
  - destruct (holds t sh) eqn:Ht; [|discriminate].
    pose proof (holds_remove_one t sh Ht) as Hlen.
    destruct w; cbn; [discriminate|].
    destruct r as [|r]; cbn; [discriminate|].
    intros H; injection H as <-; cbn. split; [lia|assumption].
  - unfold rw_semaphore.is_locked. cbn.
    destruct w; cbn.
    + intros H; injection H as <-; cbn. split; assumption.
    + destruct r as [|r]; cbn; intros H; injection H as <-; cbn.
      * subst ex. split; [assumption|]. split; [reflexivity|].
        destruct sh; [reflexivity|discriminate].
      * split; assumption.
  - unfold rw_semaphore.is_locked. cbn.
    destruct w; cbn.
    + intros H; injection H as <-; cbn. split; assumption.
    + destruct r as [|r]; cbn; intros H; injection H as <-; cbn.
      * subst ex. split; [assumption|]. split; [reflexivity|].
        destruct sh; [reflexivity|discriminate].
      * split; assumption.
  - destruct (holds t ex) eqn:Ht; [|discriminate].
    pose proof (holds_remove_one t ex Ht) as Hlen.
    destruct w; cbn; [|discriminate].
    intros H; injection H as <-; cbn. destruct Hw as [He Hs].
    split; [assumption|]. destruct (remove_one t ex); [reflexivity|cbn in Hlen; lia].
Qed.

Lemma run_consistent sched : forall c c',
  consistent c -> run sched c = Some c' -> consistent c'.
Proof.
  induction sched as [|[t m] sched IH]; intros c c' Hc; cbn.
  - intros H; injection H as <-. exact Hc.
  - destruct (step t m c) as [c1|] eqn:Hs; [|discriminate].
    apply IH. exact (step_consistent t m c c1 Hc Hs).
Qed.

(** C3: whatever the schedule of the threads' calls on a [rw_spinlock],
    either no thread holds the exclusive mode (and any number hold the
    shared mode), or exactly one thread holds the exclusive mode and none
    holds the shared mode. *)
Theorem mutual_exclusion (sched : list (nat * method)) (c : config) :
  run sched initial = Some c ->
  exclusive_holders c = []
  \/ (exists t, exclusive_holders c = [t]) /\ shared_holders c = [].
Proof.
  intros Hrun.
  pose proof (run_consistent sched initial c initial_consistent Hrun) as [_ Hw].
  destruct (rw_semaphore.writer (rw_spinlock.sem_ (the_lock c))).
  - right. destruct Hw as [He Hs]. split; [|exact Hs].
    destruct (exclusive_holders c) as [|t [|u ex]]; try discriminate He.
    exists t. reflexivity.
  - left. exact Hw.
Qed.

Lemma mutual_exclusion_witness :
  exists c,
    run [(1, lock_shared); (2, lock_shared); (3, try_lock); (1, unlock_shared);
         (3, lock); (2, unlock_shared); (3, lock); (1, lock_shared); (4, try_lock)]
        initial = Some c /\
    (exclusive_holders c = []
     \/ (exists t, exclusive_holders c = [t]) /\ shared_holders c = []).
Proof.
  eexists. split; [reflexivity|].
  apply (mutual_exclusion
           [(1, lock_shared); (2, lock_shared); (3, try_lock); (1, unlock_shared);
            (3, lock); (2, unlock_shared); (3, lock); (1, lock_shared); (4, try_lock)]).
  reflexivity.
Defined.

(** A thread that holds a mode can always give it back: under the protocol
    no release is undefined. *)
Lemma holder_can_release (sched : list (nat * method)) (c : config) (t : nat) :
  run sched initial = Some c ->
  (holds t (shared_holders c) = true -> exists c', step t unlock_shared c = Some c') /\
  (holds t (exclusive_holders c) = true -> exists c', step t unlock c = Some c').
Proof.
  intros Hrun.
  pose proof (run_consistent sched initial c initial_consistent Hrun) as Hc.
  destruct c as [[[r w]] sh ex]. unfold consistent in Hc. cbn in *.
  destruct Hc as [Hr Hw]. split; intros Ht; rewrite Ht.
  - destruct w.
    + destruct Hw as [_ ->]. discriminate Ht.
    + destruct sh; [discriminate Ht|]. cbn in Hr. subst r. cbn. eexists. reflexivity.
  - destruct w; [cbn; eexists; reflexivity|]. subst ex. discriminate Ht.
Qed.

(** The only calls without a successor are releases of a mode the thread
    does not hold. *)
Lemma step_None (sched : list (nat * method)) (c : config) (t : nat) (m : method) :
  run sched initial = Some c ->
  step t m c = None ->
  (m = unlock_shared /\ holds t (shared_holders c) = false)
  \/ (m = unlock /\ holds t (exclusive_holders c) = false).
Proof.
  intros Hrun Hs.
  destruct (holder_can_release sched c t Hrun) as [Hsh Hex].
  destruct m.
  - destruct c as [[[r [|]]] sh ex]; discriminate Hs.
  - left. split; [reflexivity|].
    destruct (holds t (shared_holders c)); [|reflexivity].
    destruct (Hsh eq_refl) as [c' E]. congruence.
  - destruct c as [[[[|r] [|]]] sh ex]; discriminate Hs.
  - destruct c as [[[[|r] [|]]] sh ex]; discriminate Hs.
  - right. split; [reflexivity|].
    destruct (holds t (exclusive_holders c)); [|reflexivity].
    destruct (Hex eq_refl) as [c' E]. congruence.
Qed.

End mutual_exclusion.

(** * Further properties of [percpu_rwlock] *)

(** ** [is_locked], and what [try_lock] has to do with it *)

Section is_locked_query.
Import percpu_rwlock.

Local Abbreviation fresh := {| padded_lock.lock := after rw_spinlock.ctor |}.
Local Abbreviation taken := {| padded_lock.lock := rw_spinlock.write_held |}.
Local Abbreviation not_held_at :=
  (fun i : nat => (i, rw_spinlock.sem_is_locked false)).

(** The loop of [is_locked] with its calls: one query per shard, upwards,
    the last one on the first shard that is held. *)
Lemma is_locked_from_calls n pre suf :
  is_locked_from (length suf) (length pre) {| n_cpus_ := n; locks_ := pre ++ suf |}
  = match first_held suf with
    | None =>
        (Returns false, {| n_cpus_ := n; locks_ := pre ++ suf |},
         map not_held_at (seq (length pre) (length suf)))
    | Some j =>
        (Returns true, {| n_cpus_ := n; locks_ := pre ++ suf |},
         map not_held_at (seq (length pre) j)
           ++ [(length pre + j, rw_spinlock.sem_is_locked true)])
    end.
Proof.
  revert pre. induction suf as [|pl suf IH]; intros pre; [reflexivity|].
  cbn [length is_locked_from first_held]. unfold bind_.
  rewrite (at_shard_middle rw_spinlock.is_locked n pre suf pl
             _ _ _ (is_locked_run _)).
  change (rw_semaphore.is_locked (rw_spinlock.sem_ (padded_lock.lock pl)))
    with (held pl).
  destruct (held pl) eqn:Hpl; destruct pl as [l]; cbn [padded_lock.lock].
  - rewrite Nat.add_0_r. reflexivity.
  - specialize (IH (pre ++ [{| padded_lock.lock := l |}])).
    rewrite length_app, Nat.add_1_r, <- app_assoc in IH. cbn [app] in IH.
    rewrite IH.
    destruct (first_held suf) as [j|]; cbn [fmap option_fmap option_map];
      [rewrite <- Nat.add_succ_comm|]; reflexivity.
Qed.

Lemma is_locked_calls p :
  wf p ->
  is_locked p
  = match first_held (locks_ p) with
    | None => (Returns false, p, map not_held_at (seq 0 (Z.to_nat (n_cpus_ p))))
    | Some j =>
        (Returns true, p,
         map not_held_at (seq 0 j) ++ [(j, rw_spinlock.sem_is_locked true)])
    end.
Proof.
  intros Hwf. pose proof (wf_length p Hwf) as Hlen.
  destruct p as [n ls]. cbn [n_cpus_ locks_] in *.
  unfold is_locked. cbn [n_cpus_]. rewrite Hlen.
  exact (is_locked_from_calls n [] ls).
Qed.

Lemma all_write_held_wf (n : Z) : (0 < n)%Z -> wf (all_write_held n).
Proof.
  intros Hn. split; [exact Hn|].
  unfold all_write_held. cbn [locks_ n_cpus_]. rewrite length_replicate. lia.
Qed.

Lemma all_write_held_first_held (n : Z) :
  (0 < n)%Z -> first_held (locks_ (all_write_held n)) = Some 0.
Proof.
  intros Hn. unfold all_write_held. cbn [locks_].
  destruct (Z.to_nat n) as [|k] eqn:E; [lia|reflexivity].
Qed.

(** X1: [is_locked] leaves the lock as it is and answers [true] exactly
    when some shard is held, in whichever mode. *)
Theorem is_locked_reports_any_shard (p : t) :
  wf p ->
  after (is_locked p) = p /\
  ((result (is_locked p) = Returns true /\
    exists i l, shard p i = Some l /\
                rw_semaphore.is_locked (rw_spinlock.sem_ l) = true)
   \/ (result (is_locked p) = Returns false /\
       forall i l, shard p i = Some l ->
                   rw_semaphore.is_locked (rw_spinlock.sem_ l) = false)).
Proof.
  intros Hwf. rewrite (is_locked_calls p Hwf).
  destruct (first_held (locks_ p)) as [j|] eqn:Hf; (split; [reflexivity|]).
  - left. split; [reflexivity|].
    destruct (first_held_shards p j Hf) as (_ & (l & Hl & Hh) & _).
    exists j, l. split; assumption.
  - right. split; [reflexivity|]. intros i l. unfold shard.
    rewrite (first_held_None _ Hf). intros H.
    destruct (replicate (length (locks_ p)) fresh !! i) as [pl|] eqn:E; [|discriminate H].
    apply lookup_replicate_1 in E as [-> _]. injection H as <-. reflexivity.
Qed.

Lemma is_locked_reports_any_shard_witness :
  result (is_locked {| n_cpus_ := 3; locks_ := [fresh; taken; fresh] |}) = Returns true.
Proof.
  destruct (is_locked_reports_any_shard
              {| n_cpus_ := 3; locks_ := [fresh; taken; fresh] |})
    as [_ [[E _]|[E _]]].
  - split; reflexivity.
  - exact E.
  - discriminate E.
Defined.

(** X2: [is_locked] queries the shards upwards from [0] and stops at the
    first one that reports held: no shard above it is queried. *)
Theorem is_locked_stops_at_first_held (p : t) :
  wf p ->
  (exists j,
      j < Z.to_nat (n_cpus_ p) /\
      result (is_locked p) = Returns true /\
      calls (is_locked p)
      = map not_held_at (seq 0 j) ++ [(j, rw_spinlock.sem_is_locked true)])
  \/ (result (is_locked p) = Returns false /\
      calls (is_locked p) = map not_held_at (seq 0 (Z.to_nat (n_cpus_ p)))).
Proof.
  intros Hwf. rewrite (is_locked_calls p Hwf).
  destruct (first_held (locks_ p)) as [j|] eqn:Hf; [left|right; split; reflexivity].
  destruct (first_held_shards p j Hf) as (Hlt & _).
  exists j. rewrite (wf_length p Hwf). repeat split. exact Hlt.
Qed.

Lemma is_locked_stops_at_first_held_witness :
  calls (is_locked {| n_cpus_ := 3; locks_ := [fresh; taken; taken] |})
  = [(0, rw_spinlock.sem_is_locked false); (1, rw_spinlock.sem_is_locked true)].
Proof.
  destruct (is_locked_stops_at_first_held
              {| n_cpus_ := 3; locks_ := [fresh; taken; taken] |})
    as [(j & _ & _ & E)|[E _]].
  - split; reflexivity.
  - reflexivity.
  - discriminate E.
Defined.

(** X3: [try_lock] always returns, and it returns [true] exactly when
    [is_locked()] would have answered [false]. *)
Theorem try_lock_succeeds_iff_unlocked (p : t) :
  wf p ->
  (result (try_lock p) = Returns true /\ result (is_locked p) = Returns false)
  \/ (result (try_lock p) = Returns false /\ result (is_locked p) = Returns true).
Proof.
  intros Hwf. rewrite (try_lock_run p Hwf), (is_locked_calls p Hwf).
  destruct (first_held (locks_ p)); [right|left]; split; reflexivity.
Qed.

Lemma try_lock_succeeds_iff_unlocked_witness :
  result (try_lock (all_unlocked 2)) = Returns true /\
  result (is_locked (all_unlocked 2)) = Returns false.
Proof.
  destruct (try_lock_succeeds_iff_unlocked (all_unlocked 2)) as [H|[E _]].
  - split; reflexivity.
  - exact H.
  - discriminate E.
Defined.

(** X4: a [try_lock] that succeeded leaves the lock reported as locked, and
    [unlock] after it gives back the lock as it was before. *)
Theorem try_lock_unlock_round_trip (p : t) :
  wf p ->
  result (try_lock p) = Returns true ->
  result (is_locked (after (try_lock p))) = Returns true /\
  restores (let! _ := try_lock in unlock) p.
Proof.
  intros Hwf. unfold restores, bind_. rewrite (try_lock_run p Hwf).
  destruct (first_held (locks_ p)) eqn:Hf; cbn [result after fst snd];
    [discriminate|intros _].
  destruct Hwf as [Hn Hlen]. split.
  - rewrite (is_locked_calls _ (all_write_held_wf _ Hn)).
    rewrite (all_write_held_first_held _ Hn). reflexivity.
  - rewrite unlock_run. cbn [result after fst snd]. split; [reflexivity|].
    symmetry. apply wf_unlocked_is_all_unlocked; [split|]; assumption.
Qed.

Lemma try_lock_unlock_round_trip_witness :
  restores (let! _ := try_lock in unlock) (all_unlocked 3).
Proof.
  apply (try_lock_unlock_round_trip (all_unlocked 3)).
  - split; reflexivity.
  - reflexivity.
Defined.

End is_locked_query.

(** ** Writers against readers, one call after the other *)

Section exclusion.
Import percpu_rwlock.

Local Abbreviation fresh := {| padded_lock.lock := after rw_spinlock.ctor |}.
Local Abbreviation taken := {| padded_lock.lock := rw_spinlock.write_held |}.

Lemma first_held_after_fresh i pl suf :
  held pl = true -> first_held (replicate i fresh ++ pl :: suf) = Some i.
Proof.
  intros H. induction i as [|i IH]; cbn [replicate app first_held].
  - rewrite H. reflexivity.
  - change (held fresh) with false. cbn iota. rewrite IH. reflexivity.
Qed.

Lemma replicate_split {A} (x : A) (n i : nat) :
  i < n -> replicate n x = replicate i x ++ x :: replicate (n - S i) x.
Proof.
  intros H. replace n with (i + S (n - S i)) at 1 by lia.
  rewrite replicate_add. reflexivity.
Qed.

(** X5: once [lock()] has returned, with every shard held exclusively, the
    lock admits nobody: [try_lock()] fails on shard [0] and touches nothing
    else, a second [lock()] (the lock is not reentrant) spins on shard [0],
    and on every shard [lock_shared()] spins and [try_lock()] fails; the
    lock is left as it is in each case. *)
Theorem exclusive_excludes (n : Z) (i : nat) :
  (0 < n)%Z ->
  i < Z.to_nat n ->
  try_lock (all_write_held n)
  = (Returns false, all_write_held n, [(0, rw_spinlock.sem_try_lock false)])
  /\ lock (all_write_held n)
     = (Blocks, all_write_held n, [(0, rw_spinlock.sem_lock)])
  /\ at_shard i rw_spinlock.lock_shared (all_write_held n)
     = (Blocks, all_write_held n, [(i, rw_spinlock.sem_lock_shared)])
  /\ at_shard i rw_spinlock.try_lock (all_write_held n)
     = (Returns false, all_write_held n, [(i, rw_spinlock.sem_try_lock false)]).
Proof.
  intros Hn Hi.
  pose proof (all_write_held_wf n Hn) as Hwf.
  pose proof (all_write_held_first_held n Hn) as Hf.
  split; [|split; [|split]].
  - rewrite (try_lock_run _ Hwf), Hf. reflexivity.
  - rewrite (lock_run _ Hwf), Hf. reflexivity.
  - unfold at_shard, all_write_held. cbn [locks_ n_cpus_].
    rewrite lookup_replicate_2 by exact Hi. cbn. rewrite insert_replicate. reflexivity.
  - unfold at_shard, all_write_held. cbn [locks_ n_cpus_].
    rewrite lookup_replicate_2 by exact Hi. cbn. rewrite insert_replicate. reflexivity.
Qed.

Lemma exclusive_excludes_witness :
  at_shard 2 rw_spinlock.lock_shared (all_write_held 4)
  = (Blocks, all_write_held 4, [(2, rw_spinlock.sem_lock_shared)]).
Proof.
  destruct (exclusive_excludes 4 2) as (_ & _ & E & _).
  - reflexivity.
  - cbn. lia.
  - exact E.
Defined.

(** The lock after a reader took the shard its handle refers to. *)
Lemma reader_on_shard (n : Z) (i : nat) :
  i < Z.to_nat n ->
  at_shard i rw_spinlock.lock_shared (all_unlocked n)
  = (Returns tt,
     {| n_cpus_ := n;
        locks_ := replicate i fresh
                    ++ {| padded_lock.lock :=
                            {| rw_spinlock.sem_ :=
                                 {| rw_semaphore.readers := 1;
                                    rw_semaphore.writer := false |} |} |}
                    :: replicate (Z.to_nat n - S i) fresh |},
     [(i, rw_spinlock.sem_lock_shared);
      (i, rw_spinlock.RWLOCK_ACQUIRED
            {| rw_spinlock.sem_ := {| rw_semaphore.readers := 1;
                                      rw_semaphore.writer := false |} |} 0%Z)]).
Proof.
  intros Hi. unfold all_unlocked. rewrite (replicate_split fresh _ i Hi).
  pose proof (at_shard_middle rw_spinlock.lock_shared n (replicate i fresh)
                (replicate (Z.to_nat n - S i) fresh) fresh _ _ _ eq_refl) as E.
  rewrite length_replicate in E. exact E.
Qed.

(** X6: a reader that holds one shard keeps writers out and lets readers
    in.  On a lock nobody holds, after [lock_shared()] through the handle of
    shard [i]: [try_lock()] fails on shard [i], after taking and giving back
    the shards below it, and leaves the lock as it is; [lock()] spins on
    shard [i]; and [lock_shared()] returns on every shard, [i] included. *)
Theorem reader_excludes_writers_only (p : t) (cpu : Z) (i j : nat) :
  wf p ->
  result (is_locked p) = Returns false ->
  get_lock cpu p = Returns i ->
  j < Z.to_nat (n_cpus_ p) ->
  try_lock (after (at_shard i rw_spinlock.lock_shared p))
  = (Returns false, after (at_shard i rw_spinlock.lock_shared p),
     calls_of.failed_try_lock i)
  /\ result (lock (after (at_shard i rw_spinlock.lock_shared p))) = Blocks
  /\ calls (lock (after (at_shard i rw_spinlock.lock_shared p)))
     = flat_map calls_of.locked (seq 0 i) ++ [(i, rw_spinlock.sem_lock)]
  /\ result (at_shard j rw_spinlock.lock_shared
               (after (at_shard i rw_spinlock.lock_shared p)))
     = Returns tt.
Proof.
  intros Hwf Hq Hg Hj.
  assert (Hf : first_held (locks_ p) = None).
  { rewrite (is_locked_calls p Hwf) in Hq.
    destruct (first_held (locks_ p)); [discriminate Hq|reflexivity]. }
  apply get_lock_Returns in Hg as (_ & _ & Hi).
  rewrite <- (wf_length p Hwf) in Hi.
  rewrite (wf_unlocked_is_all_unlocked p Hwf Hf).
  set (n := n_cpus_ p) in *.
  rewrite (reader_on_shard n i Hi). cbn [after fst snd].
  set (rd := {| padded_lock.lock := {| rw_spinlock.sem_ := _ |} |}).
  set (p' := {| n_cpus_ := n; locks_ := _ |}).
  assert (Hwf' : wf p').
  { split; [apply Hwf|]. subst p'. cbn [locks_ n_cpus_].
    rewrite length_app. cbn [length]. rewrite !length_replicate.
    destruct Hwf as [Hn _]. fold n in Hn. lia. }
  assert (Hf' : first_held (locks_ p') = Some i)
    by (apply first_held_after_fresh; reflexivity).
  split; [|split; [|split]].
  - rewrite (try_lock_run p' Hwf'), Hf'. reflexivity.
  - rewrite (lock_run p' Hwf'), Hf'. reflexivity.
  - rewrite (lock_run p' Hwf'), Hf'. reflexivity.
  - unfold at_shard. subst p'. cbn [locks_ n_cpus_].
    destruct (lt_eq_lt_dec j i) as [[Hlt | ->] | Hgt].
    + rewrite lookup_app_l by (rewrite length_replicate; exact Hlt).
      rewrite lookup_replicate_2 by exact Hlt. reflexivity.
    + rewrite list_lookup_middle by (rewrite length_replicate; reflexivity).
      reflexivity.
    + rewrite lookup_app_r by (rewrite length_replicate; lia).
      rewrite length_replicate.
      destruct (j - i) as [|d] eqn:Hd; [lia|]. rewrite lookup_cons.
      rewrite lookup_replicate_2 by lia. reflexivity.
Qed.

Lemma reader_excludes_writers_only_witness :
  result (lock (after (at_shard 1 rw_spinlock.lock_shared (all_unlocked 3)))) = Blocks.
Proof.
  destruct (reader_excludes_writers_only (all_unlocked 3) 1%Z 1 2) as (_ & E & _).
  - split; reflexivity.
  - reflexivity.
  - reflexivity.
  - cbn. lia.
  - exact E.
Defined.

(** X7: [lock] does not roll back.  When it spins, it does so on the first
    shard [j] that is held: the shards below [j] were unlocked, its calls
    are the acquisitions of the shards [0..j-1] upwards followed by the one
    call on shard [j] that does not return, the shards below [j] stay held
    exclusively by the waiting writer and the shards from [j] on are as
    they were. *)
Theorem lock_waits_holding_lower_shards (p : t) :
  wf p ->
  result (lock p) = Blocks ->
  exists j,
    j < Z.to_nat (n_cpus_ p) /\
    (exists l, shard p j = Some l /\
               rw_semaphore.is_locked (rw_spinlock.sem_ l) = true) /\
    (forall i, i < j -> shard p i = Some (after rw_spinlock.ctor)) /\
    calls (lock p)
    = flat_map calls_of.locked (seq 0 j) ++ [(j, rw_spinlock.sem_lock)] /\
    (forall i, i < j -> shard (after (lock p)) i = Some rw_spinlock.write_held) /\
    (forall i, j <= i -> shard (after (lock p)) i = shard p i).
Proof.
  intros Hwf. rewrite (lock_run p Hwf).
  destruct (first_held (locks_ p)) as [j|] eqn:Hf; cbn [result after calls fst snd];
    [intros _|discriminate].
  destruct (first_held_shards p j Hf) as (Hlt & Hheld & Hbelow).
  exists j. rewrite (wf_length p Hwf). split; [exact Hlt|]. split; [exact Hheld|].
  split; [exact Hbelow|]. split; [reflexivity|].
  unfold shard. cbn [locks_]. split; intros i Hi.
  - rewrite lookup_app_l by (rewrite length_replicate; exact Hi).
    rewrite lookup_replicate_2 by exact Hi. reflexivity.
  - rewrite lookup_app_r by (rewrite length_replicate; exact Hi).
    rewrite length_replicate, lookup_drop. f_equal. f_equal. lia.
Qed.

Lemma lock_waits_holding_lower_shards_witness :
  exists j,
    calls (lock {| n_cpus_ := 3; locks_ := [fresh; taken; taken] |})
    = flat_map calls_of.locked (seq 0 j) ++ [(j, rw_spinlock.sem_lock)] /\
    (forall i, i < j ->
       shard {| n_cpus_ := 3; locks_ := [fresh; taken; taken] |} i
       = Some (after rw_spinlock.ctor)) /\
    (forall i, i < j ->
       shard (after (lock {| n_cpus_ := 3; locks_ := [fresh; taken; taken] |})) i
       = Some rw_spinlock.write_held).
Proof.
  destruct (lock_waits_holding_lower_shards
              {| n_cpus_ := 3; locks_ := [fresh; taken; taken] |})
    as (j & _ & _ & B & C & H & _).
  - split; reflexivity.
  - reflexivity.
  - exists j. split; [exact C|]. split; [exact B|exact H].
Defined.

End exclusion.

(** ** What the race detector is told *)

Section detector.
Import percpu_rwlock.

Lemma count_calls_app {A} (f : A -> bool) (l1 l2 : list A) :
  count_calls f (l1 ++ l2) = count_calls f l1 + count_calls f l2.
Proof. induction l1 as [|x l1 IH]; cbn; [reflexivity|]. rewrite IH. lia. Qed.

Lemma acquired_in_try_locked i k :
  count_calls (acquired_on i) (flat_map calls_of.try_locked (seq 0 k))
  = if i <? k then 1 else 0.
Proof.
  induction k as [|k IH]; [reflexivity|].
  rewrite seq_S, flat_map_app, count_calls_app, IH.
  cbn [Nat.add flat_map app calls_of.try_locked count_calls acquired_on].
  destruct (Nat.ltb_spec i k), (Nat.eqb_spec k i), (Nat.ltb_spec i (S k)); lia.
Qed.

Lemma released_in_try_locked i k :
  count_calls (released_on i) (flat_map calls_of.try_locked (seq 0 k)) = 0.
Proof.
  induction k as [|k IH]; [reflexivity|].
  rewrite seq_S, flat_map_app, count_calls_app, IH. reflexivity.
Qed.

Lemma released_in_unlocked i k :
  count_calls (released_on i) (flat_map calls_of.unlocked (rev (seq 0 k)))
  = if i <? k then 1 else 0.
Proof.
  induction k as [|k IH]; [reflexivity|].
  rewrite seq_S, rev_app_distr. cbn [rev app flat_map Nat.add].
  rewrite count_calls_app, IH.
  cbn [calls_of.unlocked count_calls released_on].
  destruct (Nat.ltb_spec i k), (Nat.eqb_spec k i), (Nat.ltb_spec i (S k)); lia.
Qed.

Lemma acquired_in_unlocked i k :
  count_calls (acquired_on i) (flat_map calls_of.unlocked (rev (seq 0 k))) = 0.
Proof.
  induction k as [|k IH]; [reflexivity|].
  rewrite seq_S, rev_app_distr. cbn [rev app flat_map Nat.add].
  rewrite count_calls_app, IH. reflexivity.
Qed.

(** X8: [try_lock] keeps the detector's books balanced.  When it fails,
    every shard has as many "acquired" as "released" annotations in its
    calls (one of each for the shards it took and gave back, none for the
    others); when it succeeds, every shard has one "acquired" and no
    "released" annotation. *)
Theorem try_lock_annotations_balanced (p : t) (i : nat) :
  wf p ->
  (result (try_lock p) = Returns false /\
   count_calls (acquired_on i) (calls (try_lock p))
   = count_calls (released_on i) (calls (try_lock p)) /\
   count_calls (acquired_on i) (calls (try_lock p)) <= 1)
  \/ (result (try_lock p) = Returns true /\
      count_calls (acquired_on i) (calls (try_lock p))
      = (if i <? Z.to_nat (n_cpus_ p) then 1 else 0) /\
      count_calls (released_on i) (calls (try_lock p)) = 0).
Proof.
  intros Hwf. rewrite (try_lock_run p Hwf).
  destruct (first_held (locks_ p)) as [j|]; cbn [result calls fst snd].
  - left. split; [reflexivity|]. unfold calls_of.failed_try_lock.
    rewrite !count_calls_app. cbn [count_calls acquired_on released_on].
    rewrite acquired_in_try_locked, released_in_try_locked,
      released_in_unlocked, acquired_in_unlocked.
    destruct (i <? j); split; lia.
  - right. split; [reflexivity|].
    rewrite acquired_in_try_locked, released_in_try_locked. split; reflexivity.
Qed.

Lemma try_lock_annotations_balanced_witness :
  count_calls (acquired_on 0)
    (calls (try_lock {| n_cpus_ := 2;
                        locks_ := [ {| padded_lock.lock := after rw_spinlock.ctor |};
                                    {| padded_lock.lock := rw_spinlock.write_held |} ] |}))
  = count_calls (released_on 0)
      (calls (try_lock {| n_cpus_ := 2;
                          locks_ := [ {| padded_lock.lock := after rw_spinlock.ctor |};
                                      {| padded_lock.lock := rw_spinlock.write_held |} ] |})).
Proof.
  destruct (try_lock_annotations_balanced
              {| n_cpus_ := 2;
                 locks_ := [ {| padded_lock.lock := after rw_spinlock.ctor |};
                             {| padded_lock.lock := rw_spinlock.write_held |} ] |} 0)
    as [(_ & E & _)|(E & _)].
  - split; reflexivity.
  - exact E.
  - discriminate E.
Defined.

(** The destructor's loop: the shards [i-1..0] are destroyed in that order,
    whatever state they are in, and nothing else is called. *)
Lemma dtor_from_run n pre suf :
  dtor_from (length pre) {| n_cpus_ := n; locks_ := pre ++ suf |}
  = (Returns tt, {| n_cpus_ := n; locks_ := pre ++ suf |},
     rev (imap (fun i pl => (i, rw_spinlock.RWLOCK_DESTROY (padded_lock.lock pl))) pre)).
Proof.
  revert suf. induction pre as [|pl pre IH] using rev_ind; intros suf; [reflexivity|].
  rewrite length_app, Nat.add_1_r. cbn [dtor_from]. unfold bind_.
  rewrite <- app_assoc. cbn [app].
  erewrite (at_shard_middle rw_spinlock.dtor n pre suf pl) by reflexivity.
  destruct pl as [l]. cbn [padded_lock.lock]. rewrite IH.
  rewrite imap_app, rev_app_distr. cbn. rewrite Nat.add_0_r. reflexivity.
Qed.

Lemma imap_indices {A B} (g : A -> B) (l : list A) (k : nat) :
  map fst (imap (fun i x => (k + i, g x)) l) = seq k (length l).
Proof.
  revert k. induction l as [|x l IH]; intros k; [reflexivity|].
  cbn [imap map fst length seq]. rewrite Nat.add_0_r. f_equal.
  rewrite <- IH. f_equal. apply imap_ext. intros i y _. cbn. f_equal. lia.
Qed.

Lemma created_indices n :
  map fst (snd (new_padded_locks n)) = seq 0 n.
Proof.
  unfold new_padded_locks. cbn [snd].
  induction n as [|n IH]; [reflexivity|].
  rewrite seq_S, flat_map_app, map_app, IH. reflexivity.
Qed.

(** X9: the destructor tells the detector of the destruction of exactly the
    shards whose creation the constructor told it of, in the reverse order,
    whatever calls were made on the lock in between; it checks nothing and
    leaves every shard as it finds it, held or not. *)
Theorem dtor_destroys_what_ctor_created
        (NumCPUs : Z * Z) (p : t) (cs : list client.method) :
  fst (ctor NumCPUs) = Returns p ->
  result (dtor (client.run cs p)) = Returns tt /\
  after (dtor (client.run cs p)) = client.run cs p /\
  calls (dtor (client.run cs p))
  = rev (imap (fun i pl => (i, rw_spinlock.RWLOCK_DESTROY (padded_lock.lock pl)))
              (locks_ (client.run cs p))) /\
  map fst (calls (dtor (client.run cs p))) = rev (map fst (snd (ctor NumCPUs))).
Proof.
  intros Hc.
  assert (Hd : forall q, dtor q
             = (Returns tt, q,
                rev (imap (fun i pl => (i, rw_spinlock.RWLOCK_DESTROY (padded_lock.lock pl)))
                          (locks_ q)))).
  { intros [n ls]. unfold dtor. cbn [locks_].
    pose proof (dtor_from_run n ls []) as E. rewrite app_nil_r in E. exact E. }
  rewrite Hd. cbn [result after calls fst snd]. repeat split.
  rewrite map_rev. f_equal.
  rewrite (imap_indices (fun pl => rw_spinlock.RWLOCK_DESTROY (padded_lock.lock pl)) _ 0).
  pose proof (run_keeps_shape cs p) as Hs. unfold shape in Hs.
  injection Hs as _ Hs. rewrite Hs. clear Hs.
  destruct NumCPUs as [n errno]. unfold ctor in *.
  destruct (negb (errno =? 0)%Z); [discriminate Hc|].
  destruct (negb (0 <? n)%Z); [discriminate Hc|].
  pose proof (created_indices (Z.to_nat n)) as Hi.
  destruct (new_padded_locks (Z.to_nat n)) as [ls tr] eqn:E.
  cbn [fst snd] in *. injection Hc as <-. cbn [locks_].
  rewrite Hi. unfold new_padded_locks in E. injection E as <- _.
  rewrite length_replicate. reflexivity.
Qed.

Lemma dtor_destroys_what_ctor_created_witness :
  map fst (calls (dtor (client.run [client.lock; client.on_shard 1 client.m_lock_shared]
                                   (all_unlocked 3))))
  = rev (map fst (snd (ctor (3%Z, 0%Z)))).
Proof.
  apply (dtor_destroys_what_ctor_created (3%Z, 0%Z) (all_unlocked 3)
           [client.lock; client.on_shard 1 client.m_lock_shared]).
  reflexivity.
Defined.

End detector.

(** ** [get_lock]: which processor ids get a shard *)

Section routing.
Import percpu_rwlock.

(** X10: on a constructed lock, [get_lock] aborts exactly for the ids at or
    above [n_cpus_], returns the shard at index [cpu] (an element of the
    array) for [0 <= cpu < n_cpus_], and for a negative id passes the check
    and indexes below the array. *)
Theorem get_lock_checks_upper_bound_only (p : t) (cpu : Z) :
  wf p ->
  ((n_cpus_ p <= cpu)%Z /\ get_lock cpu p = Aborts)
  \/ ((0 <= cpu < n_cpus_ p)%Z /\
      get_lock cpu p = Returns (Z.to_nat cpu) /\
      exists l, shard p (Z.to_nat cpu) = Some l)
  \/ ((cpu < 0)%Z /\ get_lock cpu p = Undefined).
Proof.
  intros Hwf. rewrite (get_lock_run cpu p Hwf).
  destruct (Z.ltb_spec cpu (n_cpus_ p)) as [Hlt|Hge]; [|left; split; [lia|reflexivity]].
  right. destruct (Z.leb_spec 0 cpu) as [H0|H0]; [left|right; split; [lia|reflexivity]].
  split; [lia|]. split; [reflexivity|].
  unfold shard. destruct Hwf as [_ Hlen].
  destruct (locks_ p !! Z.to_nat cpu) as [pl|] eqn:E.
  - exists (padded_lock.lock pl). reflexivity.
  - apply lookup_ge_None_1 in E. lia.
Qed.

Lemma get_lock_checks_upper_bound_only_witness :
  (0 <= 2 < 3)%Z /\ get_lock 2 (all_unlocked 3) = Returns 2.
Proof.
  destruct (get_lock_checks_upper_bound_only (all_unlocked 3) 2)
    as [[H _]|[(H & E & _)|[H _]]].
  - split; reflexivity.
  - cbn in H. lia.
  - split; [exact H|exact E].
  - lia.
Defined.

End routing.

(** ** Threads on one [percpu_rwlock]: a writer excludes everybody *)

Section sharded_exclusion.
Import schedule.

Lemma sharded_step_consistent t i m cs cs' :
  Forall consistent cs -> sharded.step t i m cs = Some cs' ->
  Forall consistent cs' /\ length cs' = length cs.
Proof.
  intros Hcs. unfold sharded.step.
  destruct (cs !! i) as [c|] eqn:Hc; [|discriminate].
  destruct (step t m c) as [c'|] eqn:Hs; [|discriminate].
  intros H. injection H as <-. split; [|apply length_insert].
  apply Forall_insert; [exact Hcs|].
  apply (step_consistent t m c c'); [|exact Hs].
  exact (Forall_lookup_1 _ _ _ _ Hcs Hc).
Qed.

Lemma sharded_run_consistent sched : forall cs cs',
  Forall consistent cs -> sharded.run sched cs = Some cs' ->
  Forall consistent cs' /\ length cs' = length cs.
Proof.
  induction sched as [|[[t i] m] sched IH]; intros cs cs' Hcs; cbn.
  - intros H; injection H as <-. split; [exact Hcs|reflexivity].
  - destruct (sharded.step t i m cs) as [cs1|] eqn:Hs; [|discriminate].
    destruct (sharded_step_consistent t i m cs cs1 Hcs Hs) as [H1 L1].
    intros H. destruct (IH cs1 cs' H1 H) as [H2 L2]. split; [exact H2|congruence].
Qed.

Lemma sharded_initial_consistent n : Forall consistent (sharded.initial n).
Proof. apply Forall_replicate, initial_consistent. Qed.

Lemma holds_singleton t u : holds t [u] = true -> u = t.
Proof.
  cbn. destruct (Nat.eqb_spec t u); [congruence|discriminate].
Qed.

(** X11: whatever the interleaving of the threads' calls on the shards of a
    [percpu_rwlock], the number of shards stays the same and every shard
    has either no exclusive holder, or exactly one and no shared holder.  So
    once a thread holds every shard exclusively (its [lock()] or successful
    [try_lock()] has gone through them all), it is the only holder: no
    thread holds any shard in shared mode and no other thread holds any
    shard exclusively. *)
Theorem sharded_mutual_exclusion
        (n : nat) (sched : list (nat * nat * method)) (cs : sharded.config) (t : nat) :
  sharded.run sched (sharded.initial n) = Some cs ->
  length cs = n /\
  (forall i c, cs !! i = Some c ->
     exclusive_holders c = []
     \/ (exists u, exclusive_holders c = [u]) /\ shared_holders c = []) /\
  ((forall i c, cs !! i = Some c -> holds t (exclusive_holders c) = true) ->
   forall i c, cs !! i = Some c ->
     exclusive_holders c = [t] /\ shared_holders c = []).
Proof.
  intros Hrun.
  destruct (sharded_run_consistent sched _ cs (sharded_initial_consistent n) Hrun)
    as [Hcs Hlen].
  assert (Hshard : forall i c, cs !! i = Some c ->
     exclusive_holders c = []
     \/ (exists u, exclusive_holders c = [u]) /\ shared_holders c = []).
  { intros i c Hc. destruct (Forall_lookup_1 _ _ _ _ Hcs Hc) as [_ Hw].
    destruct (rw_semaphore.writer (rw_spinlock.sem_ (the_lock c))).
    - right. destruct Hw as [He Hs]. split; [|exact Hs].
      destruct (exclusive_holders c) as [|u [|v ex]]; try discriminate He.
      exists u. reflexivity.
    - left. exact Hw. }
  split; [|split].
  - rewrite Hlen. apply length_replicate.
  - exact Hshard.
  - intros Hall i c Hc. specialize (Hall i c Hc).
    destruct (Hshard i c Hc) as [He|[[u He] Hs]]; rewrite He in Hall.
    + discriminate Hall.
    + apply holds_singleton in Hall. subst u. split; assumption.
Qed.

Lemma sharded_mutual_exclusion_witness :
  exists cs,
    sharded.run [(1, 0, lock_shared); (7, 0, lock); (1, 0, unlock_shared);
                 (7, 0, lock); (2, 1, lock_shared); (7, 1, try_lock)]
                (sharded.initial 2) = Some cs /\
    length cs = 2.
Proof.
  eexists. split; [reflexivity|].
  apply (sharded_mutual_exclusion 2
           [(1, 0, lock_shared); (7, 0, lock); (1, 0, unlock_shared);
            (7, 0, lock); (2, 1, lock_shared); (7, 1, try_lock)] _ 7).
  reflexivity.
Defined.

(** The shard calls of [percpu_rwlock::lock] on shards nobody holds, run by
    thread [t] with no call of another thread in between; the shards
    before and after them are not touched. *)
Lemma lock_calls_run t suf : forall pre tail,
  Forall (fun c => the_lock c = after rw_spinlock.ctor) suf ->
  sharded.run (sharded.lock_calls t (length pre) (length suf)) (pre ++ suf ++ tail)
  = Some (pre ++ map (sharded.taken_by t) suf ++ tail).
Proof.
  induction suf as [|c suf IH]; intros pre tail Hsuf; [reflexivity|].
  apply Forall_cons in Hsuf as [Hc Hsuf].
  unfold sharded.lock_calls. cbn [length seq map sharded.run app].
  unfold sharded.step. rewrite list_lookup_middle by reflexivity.
  cbn [step]. rewrite Hc. cbn.
  rewrite insert_app_r_alt by reflexivity. rewrite Nat.sub_diag. cbn [insert list_insert].
  specialize (IH (pre ++ [sharded.taken_by t c]) tail Hsuf).
  rewrite length_app, Nat.add_1_r, <- app_assoc in IH. cbn [app] in IH.
  rewrite <- app_assoc in IH. exact IH.
Qed.

Lemma unheld_shards (cs : sharded.config) :
  first_held (map (fun c => {| padded_lock.lock := the_lock c |}) cs) = None ->
  Forall (fun c => the_lock c = after rw_spinlock.ctor) cs.
Proof.
  induction cs as [|c cs IH]; cbn [map first_held]; intros H; [constructor|].
  destruct (held {| padded_lock.lock := the_lock c |}) eqn:Hc; [discriminate H|].
  destruct (first_held _); [discriminate H|].
  constructor; [|apply IH; reflexivity].
  apply not_held_is_fresh in Hc. injection Hc as Hc. exact Hc.
Qed.

Lemma unheld_prefix (cs : sharded.config) : forall j,
  first_held (map (fun c => {| padded_lock.lock := the_lock c |}) cs) = Some j ->
  j < length cs /\
  Forall (fun c => the_lock c = after rw_spinlock.ctor) (take j cs) /\
  exists c, cs !! j = Some c /\
            rw_semaphore.is_locked (rw_spinlock.sem_ (the_lock c)) = true.
Proof.
  induction cs as [|c cs IH]; cbn [map first_held]; intros j H; [discriminate H|].
  destruct (held {| padded_lock.lock := the_lock c |}) eqn:Hc.
  - injection H as <-. cbn. split; [lia|]. split; [constructor|].
    exists c. split; [reflexivity|exact Hc].
  - destruct (first_held _) as [j'|]; cbn in H; [|discriminate H].
    injection H as <-. destruct (IH j' eq_refl) as (Hlt & Hpre & Hat).
    cbn. split; [lia|]. split; [|exact Hat].
    constructor; [|exact Hpre].
    apply not_held_is_fresh in Hc. injection Hc as Hc. exact Hc.
Qed.

Lemma map_taken_by t (cs : sharded.config) :
  map (fun c => {| padded_lock.lock := the_lock c |}) (map (sharded.taken_by t) cs)
  = replicate (length cs) {| padded_lock.lock := rw_spinlock.write_held |}.
Proof. induction cs as [|c cs IH]; [reflexivity|]. cbn. f_equal. exact IH. Qed.

Lemma unheld_has_no_holder c :
  consistent c -> the_lock c = after rw_spinlock.ctor ->
  shared_holders c = [] /\ exclusive_holders c = [].
Proof.
  intros [Hr Hw] Hc. rewrite Hc in Hr, Hw. cbn in Hr, Hw.
  split; [|exact Hw]. destruct (shared_holders c); [reflexivity|discriminate Hr].
Qed.

Lemma held_has_holder c :
  consistent c ->
  rw_semaphore.is_locked (rw_spinlock.sem_ (the_lock c)) = true ->
  exclusive_holders c <> [] \/ shared_holders c <> [].
Proof.
  intros [Hr Hw]. unfold rw_semaphore.is_locked.
  destruct (rw_semaphore.writer (rw_spinlock.sem_ (the_lock c))).
  - intros _. left. destruct Hw as [He _]. intros E. rewrite E in He. discriminate He.
  - cbn. intros H. right. intros E. rewrite E in Hr. cbn in Hr.
    rewrite Hr in H. discriminate H.
Qed.

Lemma spinning_step t c :
  rw_semaphore.is_locked (rw_spinlock.sem_ (the_lock c)) = true ->
  step t lock c = Some c.
Proof. intros H. cbn [step]. rewrite (lock_held _ H). reflexivity. Qed.

(** X12: [percpu_rwlock::lock] is the sequence of its shard calls, also
    with other threads holding shards.  In any configuration [cs] the
    threads can reach, let thread [t] make the calls [locks_[0].lock.lock()],
    [locks_[1].lock.lock()], ... as [lock()] does, with [k] the number of
    them that return.  Then the shards below [k] have [t] as their one
    exclusive holder and no shared holder, the shards from [k] on are
    untouched, and the lock is in the state [lock()] leaves it in; and either
    [k = N] and [lock()] returns, or the shard at [k] has a holder,
    [lock()] spins, and the call on shard [k] leaves everything as it is. *)
Theorem lock_is_its_shard_calls
        (n : Z) (sched : list (nat * nat * method)) (cs : sharded.config) (t : nat) :
  (0 < n)%Z ->
  sharded.run sched (sharded.initial (Z.to_nat n)) = Some cs ->
  exists k,
    k <= Z.to_nat n /\
    sharded.run (sharded.lock_calls t 0 k) cs
    = Some (map (sharded.taken_by t) (take k cs) ++ drop k cs) /\
    sharded.the_lock n (map (sharded.taken_by t) (take k cs) ++ drop k cs)
    = after (percpu_rwlock.lock (sharded.the_lock n cs)) /\
    (forall i c,
        i < k ->
        (map (sharded.taken_by t) (take k cs) ++ drop k cs) !! i = Some c ->
        exclusive_holders c = [t] /\ shared_holders c = []) /\
    ((k = Z.to_nat n /\
      result (percpu_rwlock.lock (sharded.the_lock n cs)) = Returns tt)
     \/ (k < Z.to_nat n /\
         result (percpu_rwlock.lock (sharded.the_lock n cs)) = Blocks /\
         (exists c, cs !! k = Some c /\
                    (exclusive_holders c <> [] \/ shared_holders c <> [])) /\
         sharded.step t k lock (map (sharded.taken_by t) (take k cs) ++ drop k cs)
         = Some (map (sharded.taken_by t) (take k cs) ++ drop k cs))).
Proof.
  intros Hn Hrun.
  destruct (sharded_run_consistent sched _ cs
              (sharded_initial_consistent (Z.to_nat n)) Hrun) as [Hcs Hlen].
  unfold sharded.initial in Hlen. rewrite length_replicate in Hlen.
  assert (Hwf : percpu_rwlock.wf (sharded.the_lock n cs)).
  { split; [exact Hn|]. cbn. rewrite length_map, Hlen. lia. }
  rewrite (lock_run _ Hwf).
  assert (Hholders : forall k,
    Forall (fun c => the_lock c = after rw_spinlock.ctor) (take k cs) ->
    forall i c, i < k ->
      (map (sharded.taken_by t) (take k cs) ++ drop k cs) !! i = Some c ->
      exclusive_holders c = [t] /\ shared_holders c = []).
  { intros k Hfree i c Hi Hc.
    destruct (le_lt_dec (length (take k cs)) i) as [Hge|Hlt].
    - rewrite lookup_app_r in Hc by (rewrite length_map; exact Hge).
      rewrite lookup_drop in Hc. apply lookup_lt_Some in Hc.
      rewrite length_take in Hge. lia.
    - rewrite lookup_app_l in Hc by (rewrite length_map; exact Hlt).
      rewrite list_lookup_fmap in Hc.
      destruct (take k cs !! i) as [c0|] eqn:Hc0; [|discriminate Hc].
      injection Hc as <-.
      pose proof (Forall_lookup_1 _ _ _ _ Hfree Hc0) as Hfresh.
      rewrite lookup_take_lt in Hc0 by exact Hi.
      destruct (unheld_has_no_holder c0 (Forall_lookup_1 _ _ _ _ Hcs Hc0) Hfresh)
        as [Hs He].
      cbn. rewrite He. split; [reflexivity|exact Hs]. }
  destruct (first_held (percpu_rwlock.locks_ (sharded.the_lock n cs))) as [j|] eqn:Hf.
  - destruct (unheld_prefix cs j Hf) as (Hj & Hfree & c & Hc & Hheld).
    exists j. split; [lia|]. split; [|split; [|split; [exact (Hholders j Hfree)|]]].
    + pose proof (lock_calls_run t (take j cs) [] (drop j cs) Hfree) as E.
      cbn [app length] in E. rewrite take_drop in E.
      rewrite length_take_le in E by lia. exact E.
    + cbn [after fst snd]. unfold sharded.the_lock. f_equal.
      cbn [percpu_rwlock.locks_].
      rewrite map_app, map_taken_by, length_take_le by lia.
      rewrite <- skipn_map. reflexivity.
    + right. split; [lia|]. split; [reflexivity|].
      split; [exists c; split; [exact Hc|]|].
      * exact (held_has_holder c (Forall_lookup_1 _ _ _ _ Hcs Hc) Hheld).
      * unfold sharded.step.
        assert (Hat : (map (sharded.taken_by t) (take j cs) ++ drop j cs) !! j = Some c).
        { rewrite lookup_app_r by (rewrite length_map, length_take_le; lia).
          rewrite length_map, length_take_le, Nat.sub_diag, lookup_drop by lia.
          rewrite Nat.add_0_r. exact Hc. }
        rewrite Hat, (spinning_step t c Hheld).
        rewrite list_insert_id by exact Hat. reflexivity.
  - pose proof (unheld_shards cs Hf) as Hfree.
    exists (Z.to_nat n). rewrite <- Hlen. rewrite take_ge, drop_ge by lia.
    rewrite app_nil_r.
    split; [lia|]. split; [|split; [|split]].
    + pose proof (lock_calls_run t cs [] [] Hfree) as E.
      cbn [app length] in E. rewrite !app_nil_r in E. exact E.
    + cbn [after fst snd]. unfold sharded.the_lock, percpu_rwlock.all_write_held.
      cbn [percpu_rwlock.n_cpus_]. rewrite map_taken_by, <- Hlen. reflexivity.
    + pose proof (Hholders (length cs)) as H.
      rewrite take_ge, drop_ge, app_nil_r in H by lia. exact (H Hfree).
    + left. split; reflexivity.
Qed.

Lemma lock_is_its_shard_calls_witness :
  exists k cs,
    sharded.run [(1, 0, lock_shared); (2, 1, lock_shared); (1, 0, unlock_shared)]
                (sharded.initial 3) = Some cs /\
    k < 3 /\
    result (percpu_rwlock.lock (sharded.the_lock 3 cs)) = Blocks /\
    sharded.run (sharded.lock_calls 7 0 k) cs
    = Some (map (sharded.taken_by 7) (take k cs) ++ drop k cs).
Proof.
  destruct (lock_is_its_shard_calls 3
              [(1, 0, lock_shared); (2, 1, lock_shared); (1, 0, unlock_shared)]
              _ 7 ltac:(reflexivity) eq_refl)
    as (k & _ & E & _ & _ & [[_ R]|(Hk & R & _)]).
  - discriminate R.
  - exists k. eexists. split; [reflexivity|]. split; [exact Hk|].
    split; [exact R|exact E].
Defined.

End sharded_exclusion.

(** ** One [rw_spinlock]: the detector's books and the semaphore *)

Section books.
Import rw_spinlock.

Lemma run_shard_method_books (m : client.shard_method) (l : t) (slot : Z) :
  (slot = 0 \/ slot = 1)%Z ->
  result (client.run_shard_method m l) <> Undefined ->
  count_calls (acquired_in slot) (calls (client.run_shard_method m l)) + holds_in slot l
  = count_calls (released_in slot) (calls (client.run_shard_method m l))
    + holds_in slot (after (client.run_shard_method m l)).
Proof.
  intros Hslot. destruct l as [[r w]].
  destruct m, w, r as [|r], Hslot as [-> | ->]; cbn; intros H;
    try reflexivity; try (exfalso; apply H; reflexivity); lia.
Qed.

Lemma run_shard_methods_books (ms : list client.shard_method) (slot : Z) :
  (slot = 0 \/ slot = 1)%Z ->
  forall l,
    result (run_shard_methods ms l) <> Undefined ->
    count_calls (acquired_in slot) (calls (run_shard_methods ms l)) + holds_in slot l
    = count_calls (released_in slot) (calls (run_shard_methods ms l))
      + holds_in slot (after (run_shard_methods ms l)).
Proof.
  intros Hslot. induction ms as [|m ms IH]; intros l; [reflexivity|].
  cbn [run_shard_methods]. unfold bind_.
  pose proof (run_shard_method_books m l slot Hslot) as Hm.
  destruct (client.run_shard_method m l) as [[[[]| | |] l1] t1];
    cbn [result after calls fst snd] in *; intros H;
    try (apply Hm; exact H).
  specialize (IH l1).
  destruct (run_shard_methods ms l1) as [[r2 l2] t2].
  cbn [result after calls fst snd] in *.
  rewrite !count_calls_app.
  specialize (IH H). specialize (Hm ltac:(discriminate)). lia.
Qed.

(** The calls that leave no trace with the detector: the two queries, a
    [try_lock] that fails and a call that spins. *)
Lemma silent_calls (m : client.shard_method) (l : t) :
  m = client.m_is_locked \/ m = client.m_is_write_locked
  \/ (m = client.m_try_lock /\ result (try_lock l) = Returns false)
  \/ result (client.run_shard_method m l) = Blocks ->
  count_calls is_annotation (calls (client.run_shard_method m l)) = 0 /\
  after (client.run_shard_method m l) = l.
Proof.
  destruct l as [[r w]].
  destruct m, w, r as [|r]; cbn; intros [H|[H|[[H1 H2]|H]]];
    try discriminate; split; reflexivity.
Qed.

(** X13: the detector's books agree with the semaphore.  After any
    sequence of calls on a freshly constructed [rw_spinlock], none of them a
    release of a mode that is not held, the "acquired" annotations of the
    shared slot outnumber its "released" annotations by the number of
    readers the semaphore holds, and those of the exclusive slot by one or
    zero as the semaphore is write-held or not.  And on a lock in any
    state, [is_locked()], [is_write_locked()], a [try_lock()] that fails and
    a call that spins emit no annotation at all and leave the lock as it
    is. *)
Theorem annotations_agree_with_semaphore (ms : list client.shard_method) :
  (result (run_shard_methods ms (after ctor)) <> Undefined ->
   count_calls (acquired_in 0) (calls (run_shard_methods ms (after ctor)))
   = count_calls (released_in 0) (calls (run_shard_methods ms (after ctor)))
     + rw_semaphore.readers (sem_ (after (run_shard_methods ms (after ctor))))
   /\ count_calls (acquired_in 1) (calls (run_shard_methods ms (after ctor)))
      = count_calls (released_in 1) (calls (run_shard_methods ms (after ctor)))
        + (if rw_semaphore.writer (sem_ (after (run_shard_methods ms (after ctor))))
           then 1 else 0))
  /\ (forall (m : client.shard_method) (l : t),
        m = client.m_is_locked \/ m = client.m_is_write_locked
        \/ (m = client.m_try_lock /\ result (try_lock l) = Returns false)
        \/ result (client.run_shard_method m l) = Blocks ->
        count_calls is_annotation (calls (client.run_shard_method m l)) = 0 /\
        after (client.run_shard_method m l) = l).
Proof.
  split; [|exact silent_calls].
  intros H. split.
  - pose proof (run_shard_methods_books ms 0%Z (or_introl eq_refl) (after ctor) H) as E.
    unfold holds_in in E. cbn [Z.eqb] in E. cbn in E |- *. lia.
  - pose proof (run_shard_methods_books ms 1%Z (or_intror eq_refl) (after ctor) H) as E.
    unfold holds_in in E. cbn [Z.eqb] in E. cbn in E |- *. lia.
Qed.

Lemma annotations_agree_with_semaphore_witness :
  count_calls (acquired_in 0)
    (calls (run_shard_methods
              [client.m_lock_shared; client.m_lock_shared; client.m_try_lock;
               client.m_unlock_shared; client.m_lock]
              (after ctor)))
  = count_calls (released_in 0)
      (calls (run_shard_methods
                [client.m_lock_shared; client.m_lock_shared; client.m_try_lock;
                 client.m_unlock_shared; client.m_lock]
                (after ctor)))
    + 1
  /\ count_calls is_annotation
       (calls (client.run_shard_method client.m_try_lock write_held)) = 0
  /\ count_calls is_annotation
       (calls (client.run_shard_method client.m_lock_shared write_held)) = 0.
Proof.
  destruct (annotations_agree_with_semaphore
              [client.m_lock_shared; client.m_lock_shared; client.m_try_lock;
               client.m_unlock_shared; client.m_lock]) as [B S].
  split; [|split].
  - apply B. discriminate.
  - apply (S client.m_try_lock write_held). right. right. left.
    split; reflexivity.
  - apply (S client.m_lock_shared write_held). right. right. right. reflexivity.
Defined.

End books.
